(** * md_docs: repair of broken relative links (tools/repair.py)

    A shallow embedding of [find_broken_urls], [classify_broken_urls],
    [write_corrected_url] and of the repair loop of the [links] command,
    together with the parts of the Python standard library they call
    ([pathlib.PurePosixPath], [str.replace], [difflib.get_close_matches]).

    Conventions.
    - A Python [str] is a [string]; one [ascii] stands for one character.
    - A Python [dict] is a [gmap]; a Python [list] is a [list].
    - A Python exception is a value of [exn]; code that can raise runs in the
      monad [Py], which threads the mutable state and stops at the first
      exception, keeping the mutations made before it (as Python does).
    - The one mutable field is [contents], and it is only read and written
      through the document under repair; candidate documents are read for
      their [filename] only, so they are kept by value. *)

From Stdlib Require Import QArith Qcanon Ascii.
From Stdlib Require String.
From stdpp Require Import base option list sorting strings pretty gmap.

Local Open Scope Z_scope.
Local Open Scope nat_scope.

(** ** Python strings *)

Module PyStr.

(** [len(s)] *)
Definition len (s : string) : nat := String.length s.

(** [s.startswith(p)] *)
Fixpoint startswith (p s : string) : bool :=
  match p, s with
  | EmptyString, _ => true
  | String _ _, EmptyString => false
  | String a p', String b s' => if decide (a = b) then startswith p' s' else false
  end.

(** [s[n:]] *)
Fixpoint drop (n : nat) (s : string) : string :=
  match n, s with
  | O, _ => s
  | S _, EmptyString => EmptyString
  | S n', String _ s' => drop n' s'
  end.

(** [s[:n]] *)
Fixpoint take (n : nat) (s : string) : string :=
  match n, s with
  | O, _ => EmptyString
  | S _, EmptyString => EmptyString
  | S n', String c s' => String c (take n' s')
  end.

(** [old in s] *)
Fixpoint contains (old s : string) : bool :=
  startswith old s ||
  match s with
  | EmptyString => false
  | String _ s' => contains old s'
  end.

(** [s.replace(old, new)] for a non-empty [old]: the scan goes left to
    right; where [old] starts, [new] is emitted and the scan resumes after
    the occurrence, so every non-overlapping occurrence is replaced.
    [skip] counts the characters of the current occurrence still to pass. *)
Fixpoint replace_scan (old new : string) (skip : nat) (s : string) : string :=
  match s with
  | EmptyString => EmptyString
  | String c s' =>
      match skip with
      | S k => replace_scan old new k s'
      | O =>
          if startswith old s
          then new +:+ replace_scan old new (len old - 1) s'
          else String c (replace_scan old new 0 s')
      end
  end.

(** [s.replace("", new)]: [new] goes before every character and at the end. *)
Fixpoint intersperse (new s : string) : string :=
  match s with
  | EmptyString => new
  | String c s' => new +:+ String c (intersperse new s')
  end.

(** [s.replace(old, new)] (no [count] argument: all occurrences). *)
Definition replace (s old new : string) : string :=
  match old with
  | EmptyString => intersperse new s
  | String _ _ => replace_scan old new 0 s
  end.

(** [s.split(sep)] for a one-character separator. *)
Fixpoint split (sep : ascii) (s : string) : list string :=
  match s with
  | EmptyString => [EmptyString]
  | String c s' =>
      if decide (c = sep) then EmptyString :: split sep s'
      else match split sep s' with
           | [] => [String c EmptyString]
           | w :: ws => String c w :: ws
           end
  end.

(** [sep.join(ws)] *)
Definition join (sep : string) (ws : list string) : string := String.concat sep ws.

(** ["".join(ws)], what writing the lines one after the other produces. *)
Definition cat (ws : list string) : string := foldr String.append "" ws.

End PyStr.

(** ** pathlib.PurePosixPath *)

(** A parsed path: the root (one of [""], ["/"], ["//"]) and the components
    after it, none of them empty or ["."]. *)
Record Path := MkPath { root : string; tail : list string }.

Global Instance Path_eq_dec : EqDecision Path.
Proof. solve_decision. Defined.

Module PurePath.

(** The root of a POSIX path: exactly two leading slashes are kept, any
    other number of leading slashes is one. *)
Definition splitroot (s : string) : string :=
  if PyStr.startswith "///" s then "/"
  else if PyStr.startswith "//" s then "//"
  else if PyStr.startswith "/" s then "/"
  else "".

(** [Path(s)] *)
Definition parse (s : string) : Path :=
  MkPath (splitroot s)
         (filter (λ x, x ≠ "" ∧ x ≠ ".") (PyStr.split "/"%char s)).

(** [str(p)] *)
Definition str (p : Path) : string :=
  match root p, tail p with
  | EmptyString, [] => "."
  | r, t => r +:+ PyStr.join "/" t
  end.

(** [p.name] *)
Definition name (p : Path) : string := List.last (tail p) "".

(** [p.parent] *)
Definition parent (p : Path) : Path :=
  match tail p with
  | [] => p
  | _ :: _ => MkPath (root p) (removelast (tail p))
  end.

(** [p.joinpath(q)] for an already parsed [q]: an absolute [q] wins. *)
Definition join (p q : Path) : Path :=
  match root q with
  | EmptyString => MkPath (root p) (tail p ++ tail q)
  | _ => q
  end.

(** [p.joinpath(s)] for a string [s]. *)
Definition joinpath (p : Path) (s : string) : Path := join p (parse s).

(** [p.relative_to(other)]: the components of [p] below [other], or
    [ValueError] ([None]) when [other] is not a leading part of [p]. *)
Definition relative_to (p other : Path) : option Path :=
  if decide (root p = root other ∧ tail other `prefix_of` tail p)
  then Some (MkPath "" (List.skipn (length (tail other)) (tail p)))
  else None.

(** The lexical part of [os.path.normpath]: [".."] removes the component
    before it; at the root of an absolute path it is dropped. [acc] holds
    the components kept so far, last one first. *)
Fixpoint normalize (acc : list string) (t : list string) : list string :=
  match t with
  | [] => List.rev acc
  | c :: t' =>
      if decide (c = "..")
      then match acc with
           | [] => normalize [] t'
           | _ :: acc' => normalize acc' t'
           end
      else normalize (c :: acc) t'
  end.

End PurePath.

(** ** difflib *)

(** [SequenceMatcher(None, a, b)] with [autojunk=True], as
    [get_close_matches] uses it: no junk predicate, so [bjunk] is empty.

    Scores. [ratio()] is the float [2.0 * matches / length]. It is kept here
    as the exact rational [2 * matches / length]: the two comparisons the
    caller makes ([>= cutoff] with [cutoff = 0.8], and the ordering of two
    scores) have the same outcome on the rounded doubles as on the exact
    values for every pair of strings shorter than [2^25] characters, because
    rounding is monotone, maps [4/5] to the literal [0.8], and two distinct
    such fractions differ by more than one unit in the last place. *)
Module Difflib.

Definition chars (s : string) : list ascii := String.list_ascii_of_string s.

(** [__chain_b]: the positions of every character of [b], in increasing
    order ... *)
Definition index_b (b : list ascii) : gmap ascii (list nat) :=
  fold_left (λ (b2j : gmap ascii (list nat)) '(i, elt),
               <[elt := default [] (b2j !! elt) ++ [i]]> b2j)
            (imap (λ i elt, (i, elt)) b) ∅.

(** ... without the popular ones when [b] has 200 characters or more. *)
Definition chain_b (b : list ascii) : gmap ascii (list nat) :=
  let b2j := index_b b in
  let n := length b in
  if decide (200 ≤ n)
  then let ntest := n / 100 + 1 in
       filter (λ '(_, idxs), ¬ (ntest < length idxs)) b2j
  else b2j.

(** The best block found so far: [(besti, bestj, bestsize)]. *)
Definition Match : Type := nat * nat * nat.

Section matcher.
Variables (a b : list ascii) (b2j : gmap ascii (list nat)).

(** The body of [for j in b2j.get(a[i], nothing)]; [j2len] is the row of
    the previous [i], [row] is [(best, newj2len)]. The indices come in
    increasing order, so leaving the loop at the first [j >= bhi] skips
    exactly the indices that are not below [bhi]. *)
Definition scan_j (blo bhi i : nat) (j2len : gmap nat nat)
    (row : Match * gmap nat nat) (j : nat) : Match * gmap nat nat :=
  let '(best, newj2len) := row in
  if decide (j < blo) then row
  else if decide (bhi ≤ j) then row
  else
    let k := match j with
             | O => 0
             | S j' => default 0 (j2len !! j')
             end + 1 in
    let newj2len := <[j := k]> newj2len in
    if decide (best.2 < k)
    then ((i + 1 - k, j + 1 - k, k), newj2len)
    else (best, newj2len).

(** The body of [for i in range(alo, ahi)]. *)
Definition scan_i (blo bhi : nat) (st : Match * gmap nat nat) (i : nat)
    : Match * gmap nat nat :=
  let '(best, j2len) := st in
  let js := match a !! i with
            | Some c => default [] (b2j !! c)
            | None => []
            end in
  fold_left (scan_j blo bhi i j2len) js (best, ∅).

(** [while besti > alo and bestj > blo and a[besti-1] == b[bestj-1]];
    [room] is [besti - alo]. *)
Fixpoint extend_left (room : nat) (blo : nat) (m : Match) : Match :=
  match room with
  | O => m
  | S room' =>
      let '(besti, bestj, bestsize) := m in
      if decide (blo < bestj ∧ is_Some (a !! (besti - 1))
                 ∧ a !! (besti - 1) = b !! (bestj - 1))
      then extend_left room' blo (besti - 1, bestj - 1, bestsize + 1)
      else m
  end.

(** [while besti+bestsize < ahi and bestj+bestsize < bhi and
    a[besti+bestsize] == b[bestj+bestsize]]; [room] is
    [ahi - (besti + bestsize)]. *)
Fixpoint extend_right (room : nat) (bhi : nat) (m : Match) : Match :=
  match room with
  | O => m
  | S room' =>
      let '(besti, bestj, bestsize) := m in
      if decide (bestj + bestsize < bhi ∧ is_Some (a !! (besti + bestsize))
                 ∧ a !! (besti + bestsize) = b !! (bestj + bestsize))
      then extend_right room' bhi (besti, bestj, bestsize + 1)
      else m
  end.

(** [find_longest_match(alo, ahi, blo, bhi)]. The two further loops of
    the library extend the block over junk and never run here. *)
Definition find_longest_match (alo ahi blo bhi : nat) : Match :=
  let '(best, _) :=
    fold_left (scan_i blo bhi) (seq alo (ahi - alo)) ((alo, blo, 0), ∅) in
  let best := extend_left (best.1.1 - alo) blo best in
  extend_right (ahi - (best.1.1 + best.2)) bhi best.

(** The total size of the blocks [get_matching_blocks] collects. The
    library keeps the pending ranges on a stack; the sum does not depend
    on the order in which they are taken. [fuel] bounds the nesting of
    the ranges, each of which is shorter than the range it comes from. *)
Fixpoint matching_size (fuel : nat) (alo ahi blo bhi : nat) : nat :=
  match fuel with
  | O => 0
  | S fuel' =>
      let '(i, j, k) := find_longest_match alo ahi blo bhi in
      if decide (k = 0) then 0
      else k
           + (if decide (alo < i ∧ blo < j)
              then matching_size fuel' alo i blo j else 0)
           + (if decide (i + k < ahi ∧ j + k < bhi)
              then matching_size fuel' (i + k) ahi (j + k) bhi else 0)
  end.

End matcher.

(** [_calculate_ratio(matches, length)] *)
Definition calculate_ratio (matches length : nat) : Qc :=
  match length with
  | O => Q2Qc 1
  | S _ => Q2Qc (Z.of_nat (2 * matches) # Pos.of_nat length)
  end.

(** [SequenceMatcher(None, a, b).ratio()] *)
Definition ratio (a b : string) : Qc :=
  let la := length (chars a) in
  let lb := length (chars b) in
  calculate_ratio
    (matching_size (chars a) (chars b) (chain_b (chars b)) (S la) 0 la 0 lb)
    (la + lb).

(** [quick_ratio()]: the characters of [a] that are still available in the
    multiset of the characters of [b]. *)
Definition fullbcount (b : list ascii) : gmap ascii Z :=
  fold_left (λ (m : gmap ascii Z) elt, <[elt := (default 0 (m !! elt) + 1)%Z]> m) b ∅.

Definition quick_matches (a b : list ascii) : nat :=
  (fold_left (λ '(avail, matches) elt,
                let numb : Z := match (avail : gmap ascii Z) !! elt with
                                | Some n => n
                                | None => default 0%Z (fullbcount b !! elt)
                                end in
                (<[elt := (numb - 1)%Z]> avail,
                 if decide (0 < numb)%Z then matches + 1 else matches))
             a (∅, 0)).2.

Definition quick_ratio (a b : string) : Qc :=
  calculate_ratio (quick_matches (chars a) (chars b))
                  (length (chars a) + length (chars b)).

(** [real_quick_ratio()] *)
Definition real_quick_ratio (a b : string) : Qc :=
  let la := length (chars a) in
  let lb := length (chars b) in
  calculate_ratio (la `min` lb) (la + lb).

(** The order of the tuples [(score, x)], largest first. *)
Definition tuple_ge (p q : Qc * string) : Prop :=
  (q.1 < p.1)%Qc ∨ (q.1 = p.1 ∧ String.le q.2 p.2).

Global Instance tuple_ge_dec : RelDecision tuple_ge.
Proof. intros p q. unfold tuple_ge. apply _. Defined.

(** [heapq.nlargest(n, result)], which is [sorted(result, reverse=True)[:n]]. *)
Definition nlargest (n : nat) (result : list (Qc * string)) : list (Qc * string) :=
  take n (merge_sort tuple_ge result).

(** The test a possibility has to pass. *)
Definition close_enough (word : string) (cutoff : Qc) (x : string) : Prop :=
  (cutoff ≤ real_quick_ratio x word)%Qc ∧ (cutoff ≤ quick_ratio x word)%Qc
  ∧ (cutoff ≤ ratio x word)%Qc.

Global Instance close_enough_dec word cutoff x : Decision (close_enough word cutoff x).
Proof. unfold close_enough. apply _. Defined.

(** [get_close_matches(word, possibilities, n, cutoff)] for [n > 0] and
    [0 <= cutoff <= 1]. *)
Definition get_close_matches (word : string) (possibilities : list string)
    (n : nat) (cutoff : Qc) : list string :=
  let result :=
    fold_left (λ result x,
                 if decide (close_enough word cutoff x)
                 then result ++ [(ratio x word, x)] else result)
              possibilities [] in
  (nlargest n result).*2.

End Difflib.

(** ** Documents and links *)

(** The dictionary that describes one link occurrence. *)
Record Url := MkUrl {
  url_full : string;            (* 'full': the whole match, [text](link) *)
  url_text : string;            (* 'text' *)
  url_link : string;            (* 'link' *)
  url_md_span : nat * nat;      (* 'md_span': start and end of 'md' in the line *)
  url_md : string;              (* 'md': the path of the target, without anchor *)
  url_section_span : Z * Z;     (* 'section_span', (-1, -1) without section *)
  url_section : option string;  (* 'section': the id after '#' *)
}.

(** What the code consumes of a [MarkdownDocument]: its path, its lines and
    the pairs (line number, url) that [relative_links()] yields. *)
Record MarkdownDocument := MkDoc {
  filename : Path;
  contents : list string;
  relative_links : list (nat * Url);
}.

Global Instance Url_eq_dec : EqDecision Url.
Proof. solve_decision. Defined.
Global Instance MarkdownDocument_eq_dec : EqDecision MarkdownDocument.
Proof. solve_decision. Defined.

(** A problem is a broken link with its line number; a classified problem
    carries the candidate documents. *)
Definition Problem : Type := nat * Url.
Definition Classified : Type := Problem * list MarkdownDocument.

(** ** The file system *)

(** Regular files with their text, directories, and the paths the system
    refuses to open for writing, all keyed by absolute normalized path; no
    symbolic links. [cwd] is the working directory of the process. *)
Record FileSystem := MkFS {
  files : gmap string string;
  dirs : gset string;
  readonly : gset string;
  cwd : Path;
}.

Module FS.

(** [p.resolve()], which is [os.path.realpath] in its non-strict mode. On a
    file system without symbolic links that is: a relative path is joined
    to the working directory, [".."] removes the component before it, and
    the root of an absolute path becomes ["/"], also when it was ["//"]. *)
Definition resolve (fs : FileSystem) (p : Path) : Path :=
  let q := PurePath.join (cwd fs) p in
  MkPath (match root p with
          | EmptyString => root q
          | _ => "/"
          end)
         (PurePath.normalize [] (tail q)).

Definition key (fs : FileSystem) (p : Path) : string :=
  PurePath.str (resolve fs p).

(** [p.exists()], for a file system that answers every query. *)
Definition exists_ (fs : FileSystem) (p : Path) : bool :=
  bool_decide (is_Some (files fs !! key fs p)) || bool_decide (key fs p ∈ dirs fs).

(** Whether [p.open("w")] succeeds; otherwise it raises [OSError] (or one
    of its subclasses) and leaves the file as it is. *)
Definition writable (fs : FileSystem) (p : Path) : bool :=
  bool_decide (key fs p ∉ readonly fs) && bool_decide (key fs p ∉ dirs fs).

(** The file system after [p] was opened for writing, [text] was written
    and the file was closed. *)
Definition write (fs : FileSystem) (p : Path) (text : string) : FileSystem :=
  MkFS (<[key fs p := text]> (files fs)) (dirs fs) (readonly fs) (cwd fs).

End FS.

(** ** Exceptions and state *)

Inductive exn := IndexError | ValueError | OSError.

Inductive result (A : Type) := Ok (a : A) | Raise (e : exn).
Arguments Ok {A} a.
Arguments Raise {A} e.

Global Instance exn_eq_dec : EqDecision exn.
Proof. solve_decision. Defined.

(** A computation over a mutable state [S] that returns or raises. *)
Definition Py (S A : Type) : Type := S → result A * S.

Module Py.
Definition ret {S A} (a : A) : Py S A := λ s, (Ok a, s).
Definition bind {S A B} (m : Py S A) (k : A → Py S B) : Py S B :=
  λ s, match m s with
       | (Ok a, s') => k a s'
       | (Raise e, s') => (Raise e, s')
       end.
Definition raise {S A} (e : exn) : Py S A := λ s, (Raise e, s).
Definition get {S} : Py S S := λ s, (Ok s, s).
Definition modify {S} (f : S → S) : Py S unit := λ s, (Ok tt, f s).
(** [for x in xs: body(x)] *)
Fixpoint for_ {S A} (xs : list A) (body : A → Py S unit) : Py S unit :=
  match xs with
  | [] => ret tt
  | x :: xs' => bind (body x) (λ _, for_ xs' body)
  end.
(** [l[i]] *)
Definition index {S A} (l : list A) (i : nat) : Py S A :=
  match l !! i with
  | Some x => ret x
  | None => raise IndexError
  end.
End Py.

Declare Scope py_scope.
Delimit Scope py_scope with py.
Notation "'let!' x := m 'in' k" := (Py.bind m (λ x, k))
  (at level 10, x name, m at level 100, k at level 200, only parsing) : py_scope.
Notation "'do!' m 'in' k" := (Py.bind m (λ _, k))
  (at level 10, m at level 100, k at level 200, only parsing) : py_scope.

(** What a Python function hands back. *)
Inductive PyVal := PyNone | PyInt (z : Z).

Global Instance PyVal_eq_dec : EqDecision PyVal.
Proof. solve_decision. Defined.

(** The state [write_corrected_url] works on: the document object, the file
    system and the records sent to the logger. *)
Record World := MkWorld {
  doc : MarkdownDocument;
  disk : FileSystem;
  log : list string;
}.

Definition log_info (msg : string) : Py World unit :=
  Py.modify (λ w, MkWorld (doc w) (disk w) (log w ++ [msg])).

(** [md.contents[line] = new_line], for a [line] within the list. *)
Definition set_line (line : nat) (new_line : string) : Py World unit :=
  Py.modify (λ w, MkWorld (MkDoc (filename (doc w))
                                 (<[line := new_line]> (contents (doc w)))
                                 (relative_links (doc w)))
                          (disk w) (log w)).

(** [with md.filename.open("w", encoding="utf-8") as fo:
       for line in md.contents: fo.write(line)] *)
Definition write_lines : Py World unit :=
  (let! w := Py.get in
   if FS.writable (disk w) (filename (doc w))
   then Py.modify (λ w, MkWorld (doc w)
                                (FS.write (disk w) (filename (doc w))
                                          (PyStr.cat (contents (doc w))))
                                (log w))
   else Py.raise OSError)%py.

(** ** find_broken_urls *)

Definition find_broken_urls (md : MarkdownDocument) (fs : FileSystem) : list Problem :=
  fold_left
    (λ problems rurl,
       let file := FS.resolve fs (PurePath.joinpath (PurePath.parent (filename md))
                                                    (url_md rurl.2)) in
       if FS.exists_ fs file then problems else problems ++ [rurl])
    (relative_links md) [].

(** ** classify_broken_urls *)

Record Results := MkResults {
  no_matches : list Classified;
  suggestions : list Classified;
  exact_match : list Classified;
  exact_matches : list Classified;
}.

(** [cutoff=0.8]; [n] is left at its default, 3. *)
Definition cutoff : Qc := Q2Qc (4 # 5).
Definition n_default : nat := 3.

(** [Path(url["md"]).name] *)
Definition key_of (problem : Problem) : string :=
  PurePath.name (PurePath.parse (url_md problem.2)).

(** [lookup.keys()]. Python goes through the keys in the order of insertion;
    [get_close_matches] sorts what it keeps, so the order has no effect on
    its result. *)
Definition keys (lookup : gmap string (list MarkdownDocument)) : list string :=
  (map_to_list lookup).*1.

(** The body of [for problem in broken_urls]. *)
Definition classify_step (lookup : gmap string (list MarkdownDocument))
    (results : Results) (problem : Problem) : Results :=
  let key := key_of problem in
  match lookup !! key with
  | Some docs =>
      let matches := docs in
      if decide (length matches = 1)
      then MkResults (no_matches results) (suggestions results)
                     (exact_match results ++ [(problem, matches)])
                     (exact_matches results)
      else MkResults (no_matches results) (suggestions results)
                     (exact_match results)
                     (exact_matches results ++ [(problem, matches)])
  | None =>
      let suggested := Difflib.get_close_matches key (keys lookup) n_default cutoff in
      match suggested with
      | _ :: _ =>
          MkResults (no_matches results)
                    (suggestions results
                       ++ [(problem, pk ← suggested; default [] (lookup !! pk))])
                    (exact_match results) (exact_matches results)
      | [] =>
          MkResults (no_matches results ++ [(problem, [])])
                    (suggestions results)
                    (exact_match results) (exact_matches results)
      end
  end.

Definition classify_broken_urls (lookup : gmap string (list MarkdownDocument))
    (broken_urls : list Problem) : Results :=
  fold_left (classify_step lookup) broken_urls (MkResults [] [] [] []).

(** ** write_corrected_url and the repair loop of [links] *)

Section repair.

(** [md_docs.common.relative_path(left, right)], which the module imports:
    the relative path that leads from the directory [left] to the
    directory [right]. *)
Variable relative_path : Path → Path → Path.

(** [relative_path(md.filename.parent, matches[0].filename.parent)
      .joinpath(matches[0].filename.name)] *)
Definition new_url_of (md m0 : MarkdownDocument) : Path :=
  PurePath.joinpath
    (relative_path (PurePath.parent (filename md)) (PurePath.parent (filename m0)))
    (PurePath.name (filename m0)).

(** The body of [for defect, matches in problems]. *)
Definition correct_url (root : Path) (entry : Classified) : Py World unit :=
  (let '((line, url), matches) := entry in
   let! w := Py.get in
   let md := doc w in
   let! m0 := Py.index matches 0 in
   let new_url := new_url_of md m0 in
   let! old_line := Py.index (contents md) line in
   let new_line := PyStr.replace old_line (url_md url) (PurePath.str new_url) in
   match PurePath.relative_to (filename md) root with
   | None => Py.raise ValueError
   | Some rel =>
       do! log_info ("File: " +:+ PurePath.str rel) in
       do! log_info ("Line: " +:+ pretty line +:+ " - Replacing `" +:+ url_md url
                     +:+ "` -> `" +:+ PurePath.str new_url +:+ "`") in
       set_line line new_line
   end)%py.

Definition write_corrected_url_body (problems : list Classified) (root : Path)
    (dry_run : bool) : Py World PyVal :=
  (do! Py.for_ problems (correct_url root) in
   do! (if dry_run
        then log_info "------DRY-RUN------"
        else do! write_lines in log_info "Changes written...") in
   Py.ret PyNone)%py.

(** [write_corrected_url(md, problems, root, dry_run)], started on the file
    system [fs] with the log [lg]. *)
Definition write_corrected_url (md : MarkdownDocument) (problems : list Classified)
    (root : Path) (dry_run : bool) (fs : FileSystem) (lg : list string)
    : result PyVal * World :=
  write_corrected_url_body problems root dry_run (MkWorld md fs lg).

(** The state of the loop over the documents to repair: the document
    objects handled so far (as they are in memory afterwards), the file
    system and the log. *)
Record Run := MkRun {
  handled : list MarkdownDocument;
  run_disk : FileSystem;
  run_log : list string;
}.

(** The loop at the end of [links]:
    [for item in results[k]:
       md, problems = item
       write_corrected_url(md, problems, root=..., dry_run=...)
       log.info("")]
    with the entries of [exact_match] as [items]. There is no handler around
    the call. ([links] reads [k] after the generator expression that binds
    it, so the command as it stands stops with a NameError before this
    loop; the loop is embedded as it is written.) *)
Fixpoint repair_loop (items : list (MarkdownDocument * list Classified))
    (root : Path) (dry_run : bool) (r : Run) : result unit * Run :=
  match items with
  | [] => (Ok tt, r)
  | (md, problems) :: items' =>
      match write_corrected_url md problems root dry_run (run_disk r) (run_log r) with
      | (Ok _, w) =>
          repair_loop items' root dry_run
            (MkRun (handled r ++ [doc w]) (disk w) (log w ++ [""]))
      | (Raise e, w) =>
          (Raise e, MkRun (handled r ++ [doc w]) (disk w) (log w))
      end
  end.

End repair.

(** ** Definitions used to state the properties *)

(** The four outcome classes of the classifier. *)
Inductive Bucket := NoMatch | Suggested | ExactOne | ExactMany.

Global Instance Bucket_eq_dec : EqDecision Bucket.
Proof. solve_decision. Defined.

(** The entries of one bucket. *)
Definition bucket (b : Bucket) (r : Results) : list Classified :=
  match b with
  | NoMatch => no_matches r
  | Suggested => suggestions r
  | ExactOne => exact_match r
  | ExactMany => exact_matches r
  end.

(** The keys [get_close_matches] proposes for a problem. *)
Definition suggested_keys (lookup : gmap string (list MarkdownDocument))
    (problem : Problem) : list string :=
  Difflib.get_close_matches (key_of problem) (keys lookup) n_default cutoff.

(** The class of a problem and the candidates it is filed with, read off the
    branches of [classify_broken_urls]. *)
Definition verdict (lookup : gmap string (list MarkdownDocument))
    (problem : Problem) : Bucket * list MarkdownDocument :=
  match lookup !! key_of problem with
  | Some docs => (if decide (length docs = 1) then ExactOne else ExactMany, docs)
  | None =>
      match suggested_keys lookup problem with
      | [] => (NoMatch, [])
      | pks => (Suggested, pk ← pks; default [] (lookup !! pk))
      end
  end.

(** The entries of bucket [b] among [problems], in the order of [problems]. *)
Definition filed (lookup : gmap string (list MarkdownDocument)) (b : Bucket)
    (problems : list Problem) : list Classified :=
  omap (λ problem, let v := verdict lookup problem in
                   if decide (v.1 = b) then Some (problem, v.2) else None)
       problems.

(** The tuple [get_close_matches] keeps for a possibility. *)
Definition scored (word x : string) : Qc * string := (Difflib.ratio x word, x).

(** Bounds that hold while [find_longest_match] runs: the lengths noted in a
    row are at most the number of rows seen, and the best block lies in the
    part of [a] seen so far. *)
Definition row_bounded (rows : nat) (j2len : gmap nat nat) : Prop :=
  ∀ j k, j2len !! j = Some k → k ≤ rows.

Definition block_within (alo upto : nat) (m : Difflib.Match) : Prop :=
  alo ≤ m.1.1 ∧ m.1.1 + m.2 ≤ upto.

(** Whether the target of a link of [md] is there. *)
Definition target_exists (md : MarkdownDocument) (fs : FileSystem) (rurl : Problem) : Prop :=
  FS.exists_ fs (FS.resolve fs (PurePath.joinpath (PurePath.parent (filename md))
                                                  (url_md rurl.2))) = true.

Global Instance target_exists_dec md fs rurl : Decision (target_exists md fs rurl).
Proof. unfold target_exists. apply _. Defined.

(** [old] starts at position [n] of [line] and nowhere else. *)
Definition occurs_only_at (old line : string) (n : nat) : Prop :=
  ∀ k, PyStr.startswith old (PyStr.drop k line) = true ↔ k = n.

(** [old] does not start anywhere in [s]. *)
Definition absent (old s : string) : Prop :=
  ∀ k, PyStr.startswith old (PyStr.drop k s) = false.

(** [old] does not start within [seg] when [old] follows [seg]. *)
Definition clean (old seg : string) : Prop :=
  ∀ k, k < PyStr.len seg → PyStr.startswith old (PyStr.drop k (seg +:+ old)) = false.

(** The same three, as tests that can be run. *)
Definition absentb (old s : string) : bool := negb (PyStr.contains old s).

Fixpoint cleanb (old seg : string) : bool :=
  match seg with
  | EmptyString => true
  | String _ seg' => negb (PyStr.startswith old (seg +:+ old)) && cleanb old seg'
  end.

Fixpoint occurs_only_atb (old line : string) (n : nat) {struct n} : bool :=
  match n with
  | O => PyStr.startswith old line && absentb old (PyStr.drop 1 line)
         && negb (bool_decide (old = ""))
  | S n' =>
      match line with
      | EmptyString => false
      | String _ line' =>
          negb (PyStr.startswith old line) && occurs_only_atb old line' n'
      end
  end.

(** The segments [segs], each followed by [sep]. *)
Definition followed_by (sep : string) (segs : list string) : string :=
  PyStr.cat ((λ seg, seg +:+ sep) <$> segs).

(** [line[:start] + new + line[end:]]: the line with the characters of the
    span replaced and everything else left as it is. *)
Definition splice (line : string) (span : nat * nat) (new : string) : string :=
  PyStr.take span.1 line +:+ new +:+ PyStr.drop span.2 line.

(** [s.replace(old, new, 1)]: only the first occurrence is replaced. *)
Fixpoint replace_first (s old new : string) : string :=
  if PyStr.startswith old s then new +:+ PyStr.drop (PyStr.len old) s
  else match s with
       | EmptyString => EmptyString
       | String c s' => String c (replace_first s' old new)
       end.

(** The number of positions at which two line sequences differ. *)
Fixpoint lines_changed (before after : list string) : nat :=
  match before, after with
  | b :: before', a :: after' =>
      (if decide (b = a) then 0 else 1) + lines_changed before' after'
  | _, _ => 0
  end.

(** Modelled from the spec: [md_docs.common.relative_path], which
    tools/repair.py imports and which is not part of this file. It is "the
    relative path from the source document's directory to the target
    document's directory": one [".."] for every component of [left] below
    the common leading part, then the components of [right] below it. *)
Definition relative_path_model (left right : Path) : Path :=
  let '(l, r, _) := max_prefix (tail left) (tail right) in
  MkPath "" (replicate (length l) ".." ++ r).

(** An entry that [write_corrected_url] can apply: it has a candidate, its
    line is a line of the document, and the document lies below [root]. *)
Definition applicable (md : MarkdownDocument) (root : Path) (entry : Classified) : Prop :=
  entry.2 ≠ [] ∧ entry.1.1 < length (contents md)
  ∧ is_Some (PurePath.relative_to (filename md) root).

Global Instance applicable_dec md root entry : Decision (applicable md root entry).
Proof. unfold applicable. apply _. Defined.

Section described.
Variable relative_path : Path → Path → Path.

(** The lines of [md] after the entries were gone through one after the
    other, up to the first one that cannot be applied. *)
Fixpoint rewritten (md : MarkdownDocument) (root : Path)
    (problems : list Classified) (lines : list string) : list string :=
  match problems with
  | [] => lines
  | ((line, url), matches) :: rest =>
      match matches, lines !! line, PurePath.relative_to (filename md) root with
      | m0 :: _, Some old_line, Some _ =>
          rewritten md root rest
            (<[line := PyStr.replace old_line (url_md url)
                         (PurePath.str (new_url_of relative_path md m0))]> lines)
      | _, _, _ => lines
      end
  end.
End described.

(** *** The claims that the code does not meet, as they are worded *)

Section worded.
Variable relative_path : Path → Path → Path.

(** "leaving all other content on the line unchanged": the new line is the
    old one with the span of the target replaced. *)
Definition rest_of_line_kept (md : MarkdownDocument) (entry : Classified)
    (root : Path) (dry_run : bool) (fs : FileSystem) : Prop :=
  let '((line, url), matches) := entry in
  ∀ old_line m0,
    contents md !! line = Some old_line → matches !! 0 = Some m0 →
    contents (doc (write_corrected_url relative_path md [entry] root dry_run fs []).2) !! line
    = Some (splice old_line (url_md_span url)
                   (PurePath.str (new_url_of relative_path md m0))).

(** "substitutes only the first occurrence of the raw target substring". *)
Definition only_first_replaced (md : MarkdownDocument) (entry : Classified)
    (root : Path) (dry_run : bool) (fs : FileSystem) : Prop :=
  let '((line, url), matches) := entry in
  ∀ old_line m0,
    contents md !! line = Some old_line → matches !! 0 = Some m0 →
    contents (doc (write_corrected_url relative_path md [entry] root dry_run fs []).2) !! line
    = Some (replace_first old_line (url_md url)
                          (PurePath.str (new_url_of relative_path md m0))).

(** "returns the count of lines changed". *)
Definition returns_count (md : MarkdownDocument) (problems : list Classified)
    (root : Path) (dry_run : bool) (fs : FileSystem) : Prop :=
  let '(res, w) := write_corrected_url relative_path md problems root dry_run fs [] in
  res = Ok (PyInt (Z.of_nat (lines_changed (contents md) (contents (doc w))))).
End worded.

(** *** A small corpus *)

Module Corpus.

Definition root_dir : Path := PurePath.parse "/docs".

(** The line feed. *)
Definition nl : string := String "010"%char "".

Definition file_system : FileSystem :=
  MkFS (list_to_map [("/docs/a/x.md", "stale"); ("/docs/a/y.md", "stale");
                     ("/docs/a/v.md", "stale"); ("/docs/a/z.md", "stale");
                     ("/docs/c/report.md", "# Report");
                     ("/docs/c/old.md", "# Old");
                     ("/docs/d/guide.md", "# Guide");
                     ("/docs/e/guide.md", "# Guide")])
       (list_to_set ["/"; "/docs"; "/docs/a"; "/docs/c"; "/docs/d"; "/docs/e"])
       ∅ (PurePath.parse "/").


Definition link (text target : string) (section : option string) (start : nat) : Url :=
  let anchor := from_option (λ s, "#" +:+ s) "" section in
  MkUrl ("[" +:+ text +:+ "](" +:+ target +:+ anchor +:+ ")") text
        (target +:+ anchor) (start, start + PyStr.len target) target
        (match section with
         | Some s => (Z.of_nat (start + PyStr.len target),
                      Z.of_nat (start + PyStr.len target + PyStr.len s + 1))
         | None => (-1, -1)%Z
         end)
        section.

Definition to_report : Url := link "the report" "../b/report.md" (Some "intro") 17.
Definition to_old : Url := link "old.md" "old.md" None 14.
Definition to_old_a : Url := link "a" "old.md" None 4.
Definition to_old_b : Url := link "b" "old.md" None 20.
Definition to_guide : Url := link "guide" "guide.md" None 12.
Definition to_reprat : Url := link "r" "reprat.md" None 8.
Definition to_nothing : Url := link "z" "zzz.txt" None 8.
Definition to_y : Url := link "y" "y.md" None 8.

Definition report : MarkdownDocument :=
  MkDoc (PurePath.parse "/docs/c/report.md") ["# Report"] [].
Definition old : MarkdownDocument :=
  MkDoc (PurePath.parse "/docs/c/old.md") ["# Old"] [].
Definition guide_d : MarkdownDocument :=
  MkDoc (PurePath.parse "/docs/d/guide.md") ["# Guide"] [].
Definition guide_e : MarkdownDocument :=
  MkDoc (PurePath.parse "/docs/e/guide.md") ["# Guide"] [].

(** A document with a broken link that carries an anchor. *)
Definition x : MarkdownDocument :=
  MkDoc (PurePath.parse "/docs/a/x.md")
        ["# X" +:+ nl; "See [the report](../b/report.md#intro) for details." +:+ nl]
        [(1, to_report)].

(** A document whose link text repeats the file name. *)
Definition y : MarkdownDocument :=
  MkDoc (PurePath.parse "/docs/a/y.md")
        ["Read [old.md](old.md) first." +:+ nl]
        [(0, to_old)].

(** A document with two links to one target on a line. *)
Definition v : MarkdownDocument :=
  MkDoc (PurePath.parse "/docs/a/v.md")
        ["[a](old.md) and [b](old.md)" +:+ nl]
        [(0, to_old_a); (0, to_old_b)].

(** A document with one link of every kind, and one that is not broken. *)
Definition z : MarkdownDocument :=
  MkDoc (PurePath.parse "/docs/a/z.md")
        ["See [guide](guide.md)" +:+ nl; "and [r](reprat.md)" +:+ nl;
         "and [z](zzz.txt)" +:+ nl; "and [y](y.md)" +:+ nl;
         "and [the report](../b/report.md#intro)" +:+ nl]
        [(0, to_guide); (1, to_reprat); (2, to_nothing); (3, to_y); (4, to_report)].

Definition broken_in_z : list Problem :=
  [(0, to_guide); (1, to_reprat); (2, to_nothing); (4, to_report)].

Definition fix_report : Classified := ((1, to_report), [report]).
Definition fix_old : Classified := ((0, to_old), [old]).
Definition fix_old_a : Classified := ((0, to_old_a), [old]).
Definition fix_old_b : Classified := ((0, to_old_b), [old]).

Definition index : gmap string (list MarkdownDocument) :=
  list_to_map [("report.md", [report]); ("old.md", [old]);
               ("guide.md", [guide_d; guide_e]);
               ("x.md", [x]); ("y.md", [y]); ("v.md", [v]); ("z.md", [z])].

End Corpus.

From stdpp Require gmultiset.

(** ** The rest of the module *)

(** *** display_classified_url *)

(** [p.relative_to(root)], raising as Python does. *)
Definition relative_to_or_raise {S : Type} (p root : Path) : Py S Path :=
  match PurePath.relative_to p root with
  | Some rel => Py.ret rel
  | None => Py.raise ValueError
  end.

(** [log.info(msg)], for code whose only state is the log. *)
Definition log_record (msg : string) : Py (list string) unit :=
  Py.modify (λ lg, lg ++ [msg]).

(** The body of [for i, match in enumerate(matches, start=1)]. *)
Definition display_match (root : Path) (im : nat * MarkdownDocument)
    : Py (list string) unit :=
  (let! rel := relative_to_or_raise (filename im.2) root in
   log_record (pretty im.1 +:+ ". -> " +:+ PurePath.str rel))%py.

(** The body of [for defect, matches in problems]. *)
Definition display_problem (root md_relative : Path) (entry : Classified)
    : Py (list string) unit :=
  (let '((line, url), matches) := entry in
   do! log_record ("File: " +:+ PurePath.str md_relative) in
   do! log_record ("Line: " +:+ pretty line +:+ " -> `" +:+ url_full url +:+ "`") in
   Py.for_ (imap (λ i m, (S i, m)) matches) (display_match root))%py.

(** The body of [for item in results]. *)
Definition display_item (root : Path) (item : MarkdownDocument * list Classified)
    : Py (list string) unit :=
  (let '(md, problems) := item in
   let! md_relative := relative_to_or_raise (filename md) root in
   do! Py.for_ problems (display_problem root md_relative) in
   log_record "")%py.

(** [display_classified_url(results, root)] *)
Definition display_classified_url
    (results : list (MarkdownDocument * list Classified)) (root : Path)
    : Py (list string) unit :=
  Py.for_ results (display_item root).

(** *** links *)

(** The dictionary [results] of [links]: for every class, the documents that
    have entries of that class, each with its entries. *)
Record Report := MkReport {
  all_no_matches : list (MarkdownDocument * list Classified);
  all_suggestions : list (MarkdownDocument * list Classified);
  all_exact_match : list (MarkdownDocument * list Classified);
  all_exact_matches : list (MarkdownDocument * list Classified);
}.

(** [results[key].append((md, sorted_broken_urls[key]))] under
    [if sorted_broken_urls[key]]. *)
Definition append_if_any (md : MarkdownDocument) (entries : list Classified)
    (into : list (MarkdownDocument * list Classified))
    : list (MarkdownDocument * list Classified) :=
  match entries with
  | [] => into
  | _ :: _ => into ++ [(md, entries)]
  end.

(** The body of [for md in config["md_files"]]. *)
Definition collect_step (lookup : gmap string (list MarkdownDocument))
    (fs : FileSystem) (results : Report) (md : MarkdownDocument) : Report :=
  let sorted_broken_urls := classify_broken_urls lookup (find_broken_urls md fs) in
  MkReport
    (append_if_any md (no_matches sorted_broken_urls) (all_no_matches results))
    (append_if_any md (suggestions sorted_broken_urls) (all_suggestions results))
    (append_if_any md (exact_match sorted_broken_urls) (all_exact_match results))
    (append_if_any md (exact_matches sorted_broken_urls) (all_exact_matches results)).

(** The first loop of [links]. *)
Definition collect (lookup : gmap string (list MarkdownDocument))
    (md_files : list MarkdownDocument) (fs : FileSystem) : Report :=
  fold_left (collect_step lookup fs) md_files (MkReport [] [] [] []).

(** The documents of one class. *)
Definition report_of (b : Bucket) (r : Report)
    : list (MarkdownDocument * list Classified) :=
  match b with
  | NoMatch => all_no_matches r
  | Suggested => all_suggestions r
  | ExactOne => all_exact_match r
  | ExactMany => all_exact_matches r
  end.

(** [messages[key]] *)
Definition messages (b : Bucket) : list string :=
  match b with
  | NoMatch =>
      ["NO MATCHES";
       "The following files had no matches or any close matches within the system."]
  | Suggested =>
      ["SUGGESTIONS";
       "The following files did not have any exact matches within the system but they had some close matches."]
  | ExactMany =>
      ["EXACT MATCHES";
       "The following files have multiple exact matches within the system."]
  | ExactOne =>
      ["EXACT MATCHES";
       "The following files have a single, exact match within the system."]
  end.

(** The body of [for key in (k for k in messages.keys() if k != "exact_match")]. *)
Definition show_section (results : Report) (root : Path) (b : Bucket)
    : Py (list string) unit :=
  match report_of b results with
  | [] => Py.ret tt
  | _ :: _ =>
      (do! log_record "------" in
       do! Py.for_ (messages b) log_record in
       do! log_record "" in
       display_classified_url (report_of b results) root)%py
  end.

(** The keys of [messages] other than ["exact_match"], in the order of the
    dictionary. *)
Definition reported : list Bucket := [NoMatch; Suggested; ExactMany].

(** [links] from its first record to the end of the loop over the classes
    that are only reported. *)
Definition links_report (lookup : gmap string (list MarkdownDocument))
    (md_files : list MarkdownDocument) (root : Path) (fs : FileSystem)
    : Py (list string) Report :=
  (do! log_record "Processing Markdown File Links..." in
   do! log_record "" in
   let results := collect lookup md_files fs in
   do! Py.for_ reported (show_section results root) in
   Py.ret results)%py.

(** How [links] ends. *)
Inductive links_exn :=
  | Propagated (e : exn)        (* an exception of a function it calls *)
  | NameError (name : string).  (* name '...' is not defined *)

(** [links]. After the report comes [key = k]. The only binding of [k] is
    the loop variable of the generator expression, which lives in the scope
    of that expression; [links] itself never assigns [k], and neither the
    module nor the builtins define it, so reading it raises NameError.
    Nothing after that statement is reached: not the loop over
    [results[k]] that calls [write_corrected_url], not the closing records.
    The outcome is the exception, the file system and the log. *)
Definition links (lookup : gmap string (list MarkdownDocument))
    (md_files : list MarkdownDocument) (root : Path) (dry_run : bool)
    (fs : FileSystem) (lg : list string) : links_exn * FileSystem * list string :=
  match links_report lookup md_files root fs lg with
  | (Raise e, lg') => (Propagated e, fs, lg')
  | (Ok _, lg') => (NameError "k", fs, lg')
  end.

(** *** More of the small corpus *)

Module MoreCorpus.

(** A second link to [report.md], through another directory. *)
Definition to_report_too : Url := Corpus.link "again" "misc/report.md" None 7.

(** The file system once [/docs/b/report.md] has been put back. *)
Definition restored_file_system : FileSystem :=
  FS.write Corpus.file_system (PurePath.parse "/docs/b/report.md") "# Report".

(** An entry for a line that [x] does not have. *)
Definition beyond_x : Classified := ((7, Corpus.to_report), [Corpus.report]).

(** The link of [x] once it is corrected. *)
Definition to_report_corrected : Url :=
  Corpus.link "the report" "../c/report.md" (Some "intro") 17.


End MoreCorpus.

(** *** Definitions used to state the further properties *)

(** What [pathlib] guarantees of every path object: the root is one of the
    three a POSIX path can have, and no component is empty, ["."], or holds
    a slash. *)
Fixpoint no_slash (s : string) : bool :=
  match s with
  | EmptyString => true
  | String c s' => negb (bool_decide (c = "/"%char)) && no_slash s'
  end.

Definition component_ok (c : string) : Prop :=
  c ≠ "" ∧ c ≠ "." ∧ no_slash c = true.

Definition wf_path (p : Path) : Prop :=
  (root p = "" ∨ root p = "/" ∨ root p = "//") ∧ Forall component_ok (tail p).

Global Instance wf_path_dec p : Decision (wf_path p).
Proof. unfold wf_path, component_ok. apply _. Defined.

Section described_further.
Variable relative_path : Path → Path → Path.

(** The two records [write_corrected_url] logs for an entry it applies. *)
Definition announcement (md : MarkdownDocument) (root : Path) (entry : Classified)
    : list string :=
  match entry.2, PurePath.relative_to (filename md) root with
  | m0 :: _, Some rel =>
      ["File: " +:+ PurePath.str rel;
       "Line: " +:+ pretty entry.1.1 +:+ " - Replacing `" +:+ url_md entry.1.2
       +:+ "` -> `" +:+ PurePath.str (new_url_of relative_path md m0) +:+ "`"]
  | _, _ => []
  end.

(** The exception an entry that cannot be applied ends the call with. *)
Definition refusal (md : MarkdownDocument) (entry : Classified) : exn :=
  if decide (entry.2 = [] ∨ length (contents md) ≤ entry.1.1)
  then IndexError else ValueError.

End described_further.

(** A path that lies below [root], so that [relative_to] returns. *)
Definition below (root p : Path) : Prop := is_Some (PurePath.relative_to p root).

Global Instance below_dec root p : Decision (below root p).
Proof. unfold below. apply _. Defined.

(** An item [display_classified_url] can show: the document and all the
    candidates of all its entries lie below [root]. *)
Definition displayable (root : Path) (item : MarkdownDocument * list Classified) : Prop :=
  below root (filename item.1)
  ∧ Forall (λ entry : Classified, Forall (λ m, below root (filename m)) entry.2) item.2.

Global Instance displayable_dec root item : Decision (displayable root item).
Proof. unfold displayable. apply _. Defined.

(** The number of records it logs for an entry, an item, a list of items. *)
Definition records_of_entry (entry : Classified) : nat := 2 + length entry.2.

Definition records_of_item (item : MarkdownDocument * list Classified) : nat :=
  sum_list (records_of_entry <$> item.2) + 1.

Definition records_of (results : list (MarkdownDocument * list Classified)) : nat :=
  sum_list (records_of_item <$> results).

(** A piece of logging code that returns on the [good] inputs, with [cost]
    more records, raises ValueError on the others, and never takes a
    record back. *)
Definition logs_as {A : Type} (body : A → Py (list string) unit)
    (good : A → Prop) (cost : A → nat) : Prop :=
  ∀ x lg,
    lg `prefix_of` (body x lg).2
    ∧ (good x → (body x lg).1 = Ok tt ∧ length (body x lg).2 = length lg + cost x)
    ∧ (¬ good x → (body x lg).1 = Raise ValueError).

(** The item of a document in the report of class [b], if it has one. *)
Definition item_of (lookup : gmap string (list MarkdownDocument)) (fs : FileSystem)
    (b : Bucket) (md : MarkdownDocument)
    : option (MarkdownDocument * list Classified) :=
  match bucket b (classify_broken_urls lookup (find_broken_urls md fs)) with
  | [] => None
  | entries => Some (md, entries)
  end.

(** The number of records of a section of the report. *)
Definition records_of_section (results : Report) (b : Bucket) : nat :=
  match report_of b results with
  | [] => 0
  | items => 1 + length (messages b) + 1 + records_of items
  end.

(** *** Definitions used to state what the matcher finds *)

(** The block [m] pairs equal characters of [a] and [b]. *)
Definition matches_at (a b : list ascii) (m : Difflib.Match) : Prop :=
  ∀ t, t < m.2 → is_Some (a !! (m.1.1 + t)) ∧ a !! (m.1.1 + t) = b !! (m.1.2 + t).

(** The block [m] lies in the ranges [alo, ahi) of [a] and [blo, bhi) of [b]. *)
Definition block_in (alo ahi blo bhi : nat) (m : Difflib.Match) : Prop :=
  alo ≤ m.1.1 ∧ m.1.1 + m.2 ≤ ahi ∧ blo ≤ m.1.2 ∧ m.1.2 + m.2 ≤ bhi.

(** What a row of [j2len] holds once the rows before row [n] are done: at
    [j], the length of a block of equal characters that ends just before
    row [n] in [a] and at [j] in [b], within the ranges. *)
Definition row_ok (a b : list ascii) (alo blo bhi n : nat) (j2len : gmap nat nat) : Prop :=
  ∀ j k, j2len !! j = Some k →
         1 ≤ k ∧ k ≤ n - alo ∧ k ≤ j + 1 - blo ∧ j < bhi
         ∧ matches_at a b (n - k, j + 1 - k, k).

(** The index [b2j] lists positions of [b] that hold the character. *)
Definition b2j_sound (b : list ascii) (b2j : gmap ascii (list nat)) : Prop :=
  ∀ c js j, b2j !! c = Some js → j ∈ js → b !! j = Some c.

(** [l[lo:hi]] *)
Definition slice {A : Type} (l : list A) (lo hi : nat) : list A :=
  take (hi - lo) (drop lo l).

(** The number of characters two strings share, counted with multiplicity. *)
Definition shared (u v : list ascii) : nat :=
  size ((list_to_set_disj u : gmultiset.gmultiset ascii) ∩ list_to_set_disj v).

(** * Properties *)

(** ** find_broken_urls *)

Lemma find_broken_urls_fold md fs (l : list Problem) (acc : list Problem) :
  fold_left
    (λ problems rurl,
       let file := FS.resolve fs (PurePath.joinpath (PurePath.parent (filename md))
                                                    (url_md rurl.2)) in
       if FS.exists_ fs file then problems else problems ++ [rurl])
    l acc
  = acc ++ filter (λ rurl, ¬ target_exists md fs rurl) l.
Proof.
  revert acc. induction l as [|rurl l IH]; intros acc; simpl.
  - by rewrite app_nil_r.
  - rewrite IH. rewrite filter_cons. unfold target_exists at 2.
    destruct (FS.exists_ fs _) eqn:E.
    + rewrite decide_False; [done|]. intros H. by apply H.
    + rewrite decide_True; [|congruence]. by rewrite <- app_assoc.
Qed.

(** C7. [find_broken_urls] returns the relative links of the document whose
    target, resolved against the directory of the document, does not exist:
    exactly those (each as many times as it occurs), with the line number
    [relative_links()] paired them with, in the order of the document. The
    function only reads the document. *)
Theorem find_broken_urls_exactly_the_missing (md : MarkdownDocument) (fs : FileSystem) :
  find_broken_urls md fs = filter (λ rurl, ¬ target_exists md fs rurl) (relative_links md)
  ∧ find_broken_urls md fs `sublist_of` relative_links md
  ∧ ∀ rurl, rurl ∈ find_broken_urls md fs
            ↔ rurl ∈ relative_links md ∧ ¬ target_exists md fs rurl.
Proof.
  assert (find_broken_urls md fs
          = filter (λ rurl, ¬ target_exists md fs rurl) (relative_links md)) as Heq.
  { unfold find_broken_urls. by rewrite find_broken_urls_fold. }
  split; [done|]. rewrite Heq. split.
  - apply sublist_filter.
  - intros rurl. rewrite list_elem_of_filter. tauto.
Qed.

(** ** classify_broken_urls *)

Section classify.
Context (lookup : gmap string (list MarkdownDocument)).

Lemma filed_app b l1 l2 :
  filed lookup b (l1 ++ l2) = filed lookup b l1 ++ filed lookup b l2.
Proof. unfold filed. apply omap_app. Qed.

Lemma classify_step_bucket b r problem :
  bucket b (classify_step lookup r problem)
  = bucket b r ++ filed lookup b [problem].
Proof.
  unfold classify_step, filed, verdict, suggested_keys. simpl.
  destruct (lookup !! key_of problem) as [docs|].
  - destruct (decide (length docs = 1)); destruct b; simpl;
      by rewrite ?app_nil_r.
  - destruct (Difflib.get_close_matches _ _ _ _); destruct b; simpl;
      by rewrite ?app_nil_r.
Qed.

Lemma classify_fold_bucket b l r :
  bucket b (fold_left (classify_step lookup) l r)
  = bucket b r ++ filed lookup b l.
Proof.
  revert r. induction l as [|problem l IH]; intros r; simpl.
  - by rewrite app_nil_r.
  - rewrite IH, classify_step_bucket, <- app_assoc.
    by rewrite <- filed_app.
Qed.

(** Every bucket holds the problems of its class, in the order they came. *)
Lemma classify_bucket b broken_urls :
  bucket b (classify_broken_urls lookup broken_urls) = filed lookup b broken_urls.
Proof. unfold classify_broken_urls. rewrite classify_fold_bucket. by destruct b. Qed.

Lemma elem_of_filed b problem c l :
  (problem, c) ∈ filed lookup b l ↔ problem ∈ l ∧ verdict lookup problem = (b, c).
Proof.
  unfold filed. rewrite list_elem_of_omap. split.
  - intros (p & Hin & Hp). simpl in Hp. case_decide; [|done].
    simplify_eq. split; [done|]. by destruct (verdict lookup problem).
  - intros [Hin Hv]. exists problem. split; [done|]. rewrite Hv. simpl.
    by rewrite decide_True.
Qed.

Lemma elem_of_filed_fst b problem l :
  problem ∈ (filed lookup b l).*1 ↔ problem ∈ l ∧ (verdict lookup problem).1 = b.
Proof.
  rewrite list_elem_of_fmap. split.
  - intros ([p c] & -> & Hin). apply elem_of_filed in Hin as [? Hv].
    simpl. by rewrite Hv.
  - intros [Hin Hb]. exists (problem, (verdict lookup problem).2). split; [done|].
    apply elem_of_filed. split; [done|]. rewrite <- Hb.
    by destruct (verdict lookup problem).
Qed.

Lemma filed_fst b l :
  (filed lookup b l).*1 = filter (λ problem, (verdict lookup problem).1 = b) l.
Proof.
  induction l as [|problem l IH]; [done|].
  rewrite filter_cons, <- IH. unfold filed. simpl.
  by destruct (decide _).
Qed.

Lemma filed_partition l :
  (filed lookup NoMatch l).*1 ++ (filed lookup Suggested l).*1
    ++ (filed lookup ExactOne l).*1 ++ (filed lookup ExactMany l).*1 ≡ₚ l.
Proof.
  rewrite !filed_fst.
  induction l as [|problem l IH]; [done|].
  rewrite !filter_cons.
  destruct (verdict lookup problem).1 eqn:Hb;
    repeat (first [rewrite decide_True by done | rewrite decide_False by done]);
    simpl; rewrite <- ?Permutation_middle; by rewrite IH.
Qed.

End classify.

(** C8. Every broken link handed to [classify_broken_urls] lands in exactly
    one of the four buckets: the buckets together hold the input (each link
    as often as it was given), every bucket keeps the order of the input, and
    no link is in two buckets. *)
Theorem classify_broken_urls_partition
    (lookup : gmap string (list MarkdownDocument)) (broken_urls : list Problem) :
  let r := classify_broken_urls lookup broken_urls in
  (no_matches r).*1 ++ (suggestions r).*1 ++ (exact_match r).*1 ++ (exact_matches r).*1
    ≡ₚ broken_urls
  ∧ (∀ b, (bucket b r).*1 `sublist_of` broken_urls)
  ∧ (∀ b1 b2 problem,
       problem ∈ (bucket b1 r).*1 → problem ∈ (bucket b2 r).*1 → b1 = b2)
  ∧ (∀ problem, problem ∈ broken_urls → ∃ b, problem ∈ (bucket b r).*1).
Proof.
  intros r. subst r. repeat split.
  - pose proof (classify_bucket lookup NoMatch broken_urls) as H1.
    pose proof (classify_bucket lookup Suggested broken_urls) as H2.
    pose proof (classify_bucket lookup ExactOne broken_urls) as H3.
    pose proof (classify_bucket lookup ExactMany broken_urls) as H4.
    simpl in *. rewrite H1, H2, H3, H4. apply filed_partition.
  - intros b. rewrite classify_bucket, filed_fst. apply sublist_filter.
  - intros b1 b2 problem. rewrite !classify_bucket, !elem_of_filed_fst.
    intros [_ <-] [_ <-]. done.
  - intros problem Hin. exists (verdict lookup problem).1.
    rewrite classify_bucket, elem_of_filed_fst. done.
Qed.

(** C1. A broken link whose base name is a key of the index goes to
    [exact_match] when the key has exactly one document, and to
    [exact_matches], with exactly the documents of the key, when it has more
    than one; it is in no other bucket, and no entry files it with other
    candidates. *)
Theorem classify_exact_name
    (lookup : gmap string (list MarkdownDocument)) (broken_urls : list Problem)
    (problem : Problem) (docs : list MarkdownDocument) :
  problem ∈ broken_urls →
  lookup !! key_of problem = Some docs →
  let r := classify_broken_urls lookup broken_urls in
  (length docs = 1 →
     (problem, docs) ∈ exact_match r
     ∧ ∀ b, b ≠ ExactOne → problem ∉ (bucket b r).*1)
  ∧ (1 < length docs →
     (problem, docs) ∈ exact_matches r
     ∧ ∀ b, b ≠ ExactMany → problem ∉ (bucket b r).*1)
  ∧ (∀ b c, (problem, c) ∈ bucket b r → c = docs).
Proof.
  intros Hin Hkey r. subst r.
  assert (verdict lookup problem
          = (if decide (length docs = 1) then ExactOne else ExactMany, docs)) as Hv.
  { unfold verdict. by rewrite Hkey. }
  repeat split.
  - change (exact_match ?r) with (bucket ExactOne r).
    rewrite classify_bucket, elem_of_filed, Hv.
    by rewrite decide_True.
  - intros b Hb. rewrite classify_bucket, elem_of_filed_fst, Hv.
    rewrite decide_True by done. simpl. intros [_ ?]. congruence.
  - change (exact_matches ?r) with (bucket ExactMany r).
    rewrite classify_bucket, elem_of_filed, Hv.
    by rewrite decide_False by lia.
  - intros b Hb. rewrite classify_bucket, elem_of_filed_fst, Hv.
    rewrite decide_False by lia. simpl. intros [_ ?]. congruence.
  - intros b c. rewrite classify_bucket, elem_of_filed, Hv.
    intros [_ ?]. by simplify_eq.
Qed.

(** ** get_close_matches *)

Module DifflibFacts.
Import Difflib.

Global Instance tuple_ge_total : Total tuple_ge.
Proof.
  intros [s1 x1] [s2 x2]. unfold tuple_ge. simpl.
  destruct (Qclt_le_dec s1 s2) as [Hlt|Hle]; [by right; left|].
  destruct (Qcle_lt_or_eq _ _ Hle) as [Hlt|Heq]; [by left; left|].
  subst. destruct (total String.le x1 x2); [right|left]; by right.
Qed.

Global Instance tuple_ge_trans : Transitive tuple_ge.
Proof.
  intros [s1 x1] [s2 x2] [s3 x3]. unfold tuple_ge. simpl.
  intros [H12|[-> H12]] [H23|[-> H23]].
  - left. by eapply Qclt_trans.
  - by left.
  - by left.
  - right. split; [done|]. by etrans.
Qed.

Global Instance tuple_ge_antisym : AntiSymm (=) tuple_ge.
Proof.
  intros [s1 x1] [s2 x2]. unfold tuple_ge. simpl.
  intros [H12|[-> H12]] [H21|[H21' H21]].
  - destruct (irreflexivity Qclt s1). by eapply Qclt_trans.
  - subst. by destruct (irreflexivity Qclt s2).
  - by destruct (irreflexivity Qclt s1).
  - f_equal. by apply (anti_symm String.le).
Qed.

Lemma nlargest_sorted n result : StronglySorted tuple_ge (nlargest n result).
Proof.
  unfold nlargest.
  pose proof (StronglySorted_merge_sort tuple_ge result) as Hs.
  rewrite <- (take_drop n (merge_sort tuple_ge result)) in Hs.
  by apply StronglySorted_app_1_l in Hs.
Qed.

Lemma nlargest_length n result : length (nlargest n result) ≤ n.
Proof. unfold nlargest. rewrite length_take. lia. Qed.

Lemma nlargest_subseteq n result : nlargest n result ⊆ result.
Proof.
  intros p Hp. unfold nlargest in Hp. apply subseteq_take in Hp.
  by rewrite merge_sort_Permutation in Hp.
Qed.

(** Nothing is left out while there is room. *)
Lemma nlargest_all n result :
  length result ≤ n → nlargest n result ≡ₚ result.
Proof.
  intros Hn. unfold nlargest. rewrite take_ge.
  - apply merge_sort_Permutation.
  - by rewrite merge_sort_Permutation.
Qed.

Lemma nlargest_nil n result : 0 < n → nlargest n result = [] → result = [].
Proof.
  unfold nlargest. intros Hn Hnil.
  apply Permutation_nil. rewrite <- (merge_sort_Permutation tuple_ge result).
  destruct (merge_sort tuple_ge result); [done|].
  destruct n; [lia|done].
Qed.

(** Whatever is left out is not larger than anything that is kept. *)
Lemma nlargest_best n result p q :
  NoDup result → p ∈ nlargest n result → q ∈ result → q ∉ nlargest n result →
  tuple_ge p q.
Proof.
  intros Hnd Hp Hq Hnq. unfold nlargest in *.
  pose proof (StronglySorted_merge_sort tuple_ge result) as Hs.
  rewrite <- (take_drop n (merge_sort tuple_ge result)) in Hs.
  eapply StronglySorted_app_1_elem_of; [exact Hs|done|].
  rewrite <- (merge_sort_Permutation tuple_ge result) in Hq.
  rewrite <- (take_drop n (merge_sort tuple_ge result)) in Hq.
  apply elem_of_app in Hq as [?|?]; done.
Qed.

(** The order of the possibilities does not matter. *)
Lemma nlargest_Permutation n l1 l2 :
  l1 ≡ₚ l2 → nlargest n l1 = nlargest n l2.
Proof.
  intros E. unfold nlargest. f_equal.
  apply (StronglySorted_unique tuple_ge); [apply StronglySorted_merge_sort; apply _..|].
  by rewrite !merge_sort_Permutation.
Qed.

Section matches.
Context (word : string) (c : Qc).

Lemma result_fold possibilities acc :
  fold_left (λ result x,
               if decide (close_enough word c x)
               then result ++ [(ratio x word, x)] else result)
            possibilities acc
  = acc ++ (scored word <$> filter (close_enough word c) possibilities).
Proof.
  revert acc. induction possibilities as [|x l IH]; intros acc; simpl.
  - by rewrite app_nil_r.
  - rewrite IH, filter_cons. destruct (decide _); [|done].
    by rewrite <- app_assoc.
Qed.

Lemma get_close_matches_eq possibilities n :
  get_close_matches word possibilities n c
  = (nlargest n (scored word <$> filter (close_enough word c) possibilities)).*2.
Proof. unfold get_close_matches. by rewrite result_fold. Qed.

Lemma nlargest_scored n l p :
  p ∈ nlargest n (scored word <$> l) → p = scored word p.2 ∧ p.2 ∈ l.
Proof.
  intros Hp%nlargest_subseteq. apply list_elem_of_fmap in Hp as (x & -> & Hx).
  done.
Qed.

Lemma elem_of_get_close_matches possibilities n x :
  x ∈ get_close_matches word possibilities n c →
  x ∈ possibilities ∧ close_enough word c x.
Proof.
  rewrite get_close_matches_eq. intros Hx.
  apply list_elem_of_fmap in Hx as (p & -> & Hp).
  apply nlargest_scored in Hp as [_ Hp].
  by apply list_elem_of_filter in Hp as [? ?].
Qed.

Lemma get_close_matches_length possibilities n :
  length (get_close_matches word possibilities n c) ≤ n.
Proof. rewrite get_close_matches_eq, length_fmap. apply nlargest_length. Qed.

Lemma scored_sorted (l : list (Qc * string)) :
  (∀ p, p ∈ l → p = scored word p.2) →
  StronglySorted tuple_ge l →
  StronglySorted (λ x y, (ratio y word ≤ ratio x word)%Qc) l.*2.
Proof.
  intros Hl Hs. induction Hs as [|p l Hs IH Hp]; csimpl; constructor.
  - apply IH. intros q Hq. apply Hl. by right.
  - rewrite Forall_fmap. rewrite Forall_forall in Hp |- *.
    intros q Hq. specialize (Hp q Hq). simpl.
    rewrite (Hl p) in Hp by left. rewrite (Hl q) in Hp by (by right).
    destruct Hp as [Hlt|[Heq _]]; simpl in *.
    + by apply Qclt_le_weak.
    + rewrite Heq. apply Qcle_refl.
Qed.

Lemma get_close_matches_sorted possibilities n :
  StronglySorted (λ x y, (ratio y word ≤ ratio x word)%Qc)
                 (get_close_matches word possibilities n c).
Proof.
  rewrite get_close_matches_eq. apply scored_sorted.
  - intros p Hp. by apply nlargest_scored in Hp as [? _].
  - apply nlargest_sorted.
Qed.

Lemma get_close_matches_nil possibilities n :
  0 < n →
  get_close_matches word possibilities n c = [] ↔
  ∀ x, x ∈ possibilities → ¬ close_enough word c x.
Proof.
  intros Hn. rewrite get_close_matches_eq. split.
  - intros Hnil%fmap_nil_inv. apply nlargest_nil in Hnil; [|done].
    apply fmap_nil_inv in Hnil. intros x Hx Hc.
    assert (x ∈ filter (close_enough word c) possibilities) as Hin.
    { by apply list_elem_of_filter. }
    rewrite Hnil in Hin. by apply elem_of_nil in Hin.
  - intros Hnone.
    assert (filter (close_enough word c) possibilities = []) as ->;
      [|unfold nlargest; by destruct n].
    clear Hn. induction possibilities as [|x l IH]; [done|].
    rewrite filter_cons, decide_False by (apply Hnone; left).
    apply IH. intros y Hy. apply Hnone. by right.
Qed.

(** A possibility that passes the test is left out only when [n] others
    that are at least as similar are returned. *)
Lemma get_close_matches_best possibilities n x y :
  NoDup possibilities →
  x ∈ get_close_matches word possibilities n c →
  y ∈ possibilities → close_enough word c y →
  y ∉ get_close_matches word possibilities n c →
  (ratio y word ≤ ratio x word)%Qc
  ∧ length (get_close_matches word possibilities n c) = n.
Proof.
  rewrite get_close_matches_eq. intros Hnd Hx Hy Hc Hny.
  set (l := filter (close_enough word c) possibilities) in *.
  assert (y ∈ l) as Hyl by (by apply list_elem_of_filter).
  assert (NoDup (scored word <$> l)) as Hnd'.
  { apply NoDup_fmap_2; [|by apply NoDup_filter].
    intros ?? [=]. done. }
  assert (scored word y ∉ nlargest n (scored word <$> l)) as Hny'.
  { intros Hin. apply Hny. apply list_elem_of_fmap. by exists (scored word y). }
  split.
  - apply list_elem_of_fmap in Hx as (p & -> & Hp).
    pose proof (nlargest_scored _ _ _ Hp) as [Hpe _].
    assert (tuple_ge p (scored word y)) as Hge.
    { eapply nlargest_best; [exact Hnd'|done| |done].
      apply list_elem_of_fmap. by exists y. }
    rewrite Hpe in Hge. destruct Hge as [Hlt|[Heq _]]; simpl in *.
    + by apply Qclt_le_weak.
    + rewrite Heq. apply Qcle_refl.
  - rewrite length_fmap. unfold nlargest in *.
    rewrite length_take. apply Nat.min_l.
    destruct (decide (n ≤ length (merge_sort tuple_ge (scored word <$> l)))); [done|].
    exfalso. apply Hny'. rewrite take_ge by lia.
    rewrite merge_sort_Permutation. apply list_elem_of_fmap. by exists y.
Qed.

Lemma get_close_matches_Permutation l1 l2 n :
  l1 ≡ₚ l2 → get_close_matches word l1 n c = get_close_matches word l2 n c.
Proof.
  intros E. rewrite !get_close_matches_eq. f_equal.
  apply nlargest_Permutation. by rewrite E.
Qed.

End matches.
End DifflibFacts.

(** *** The blocks stay within their range, so the fuel of [matching_size]
    is enough *)

Section matcher_bounds.
Context (a b : list ascii) (b2j : gmap ascii (list nat)).

Lemma scan_j_bounds alo blo bhi i j2len row j :
  alo ≤ i →
  row_bounded (i - alo) j2len →
  block_within alo (S i) row.1 → row_bounded (S (i - alo)) row.2 →
  block_within alo (S i) (Difflib.scan_j blo bhi i j2len row j).1
  ∧ row_bounded (S (i - alo)) (Difflib.scan_j blo bhi i j2len row j).2.
Proof.
  intros Hi Hprev Hbest Hrow. destruct row as [best newj2len].
  unfold Difflib.scan_j. simpl in *.
  destruct (decide (j < blo)); [done|]. destruct (decide (bhi ≤ j)); [done|].
  set (k := _ + 1).
  assert (k ≤ S (i - alo)) as Hk.
  { unfold k. destruct j as [|j']; [lia|].
    destruct (j2len !! j') as [k'|] eqn:E; simpl; [|lia].
    apply Hprev in E. lia. }
  assert (row_bounded (S (i - alo)) (<[j:=k]> newj2len)) as Hrow'.
  { intros j0 k0. rewrite lookup_insert. case_decide; [|by apply Hrow].
    intros [= <-]. done. }
  destruct (decide (best.2 < k)); simpl; [|done].
  split; [|done]. unfold block_within. simpl. lia.
Qed.

Lemma scan_i_bounds alo blo bhi i st :
  alo ≤ i →
  block_within alo i st.1 → row_bounded (i - alo) st.2 →
  block_within alo (S i) (Difflib.scan_i a b2j blo bhi st i).1
  ∧ row_bounded (S i - alo) (Difflib.scan_i a b2j blo bhi st i).2.
Proof.
  intros Hi Hbest Hrow. destruct st as [best j2len]. unfold Difflib.scan_i.
  replace (S i - alo) with (S (i - alo)) by lia.
  generalize (match a !! i with
              | Some c => default [] (b2j !! c)
              | None => []
              end). intros js.
  assert (block_within alo (S i) (best, (∅ : gmap nat nat)).1
          ∧ row_bounded (S (i - alo)) (best, (∅ : gmap nat nat)).2) as Hinit.
  { split; [destruct Hbest; split; simpl in *; lia|]. intros j k. simpl. by rewrite lookup_empty. }
  revert Hinit. generalize (best, (∅ : gmap nat nat)).
  induction js as [|j js IH]; intros row [H1 H2]; [done|].
  simpl. apply IH. by apply scan_j_bounds.
Qed.

Lemma scan_rows_bounds alo blo bhi n i st :
  alo ≤ i →
  block_within alo i st.1 → row_bounded (i - alo) st.2 →
  block_within alo (i + n) (fold_left (Difflib.scan_i a b2j blo bhi) (seq i n) st).1.
Proof.
  revert i st. induction n as [|n IH]; intros i st Hi Hbest Hrow; simpl.
  - by rewrite Nat.add_0_r.
  - replace (i + S n) with (S i + n) by lia.
    destruct (scan_i_bounds alo blo bhi i st Hi Hbest Hrow) as [H1 H2].
    apply IH; [lia|done..].
Qed.

Lemma extend_left_bounds alo blo room m :
  room ≤ m.1.1 - alo → alo ≤ m.1.1 →
  alo ≤ (Difflib.extend_left a b room blo m).1.1
  ∧ (Difflib.extend_left a b room blo m).1.1 + (Difflib.extend_left a b room blo m).2
    = m.1.1 + m.2.
Proof.
  revert m. induction room as [|room IH]; intros [[besti bestj] bestsize] Hroom Hlo;
    simpl in *; [done|].
  destruct (decide _); simpl; [|done].
  destruct (IH (besti - 1, bestj - 1, bestsize + 1)) as [H1 H2]; simpl; [lia..|].
  split; [done|]. rewrite H2. simpl. lia.
Qed.

Lemma extend_right_bounds ahi bhi room m :
  room + (m.1.1 + m.2) ≤ ahi →
  (Difflib.extend_right a b room bhi m).1.1 = m.1.1
  ∧ (Difflib.extend_right a b room bhi m).1.1 + (Difflib.extend_right a b room bhi m).2
    ≤ ahi.
Proof.
  revert m. induction room as [|room IH]; intros [[besti bestj] bestsize] Hroom;
    simpl in *; [split; [done|lia]|].
  destruct (decide _); simpl; [|split; [done|lia]].
  destruct (IH (besti, bestj, bestsize + 1)) as [H1 H2]; simpl; [lia|].
  done.
Qed.

(** The block [find_longest_match] returns lies in the range of [a] it was
    asked about. *)
Lemma find_longest_match_bounds alo ahi blo bhi :
  alo ≤ ahi →
  block_within alo ahi (Difflib.find_longest_match a b b2j alo ahi blo bhi).
Proof.
  intros Hlo. unfold Difflib.find_longest_match.
  pose proof (scan_rows_bounds alo blo bhi (ahi - alo) alo
                ((alo, blo, 0), ∅)) as Hscan.
  destruct (fold_left _ _ _) as [best j2len]. simpl in Hscan.
  destruct Hscan as [H1 H2]; [done|split; simpl; lia|intros j k; simpl; by rewrite lookup_empty|].
  replace (alo + (ahi - alo)) with ahi in H2 by lia.
  destruct (extend_left_bounds alo blo (best.1.1 - alo) best) as [H3 H4]; [done..|].
  destruct (extend_right_bounds ahi bhi
              (ahi - ((Difflib.extend_left a b (best.1.1 - alo) blo best).1.1
                      + (Difflib.extend_left a b (best.1.1 - alo) blo best).2))
              (Difflib.extend_left a b (best.1.1 - alo) blo best)) as [H5 H6]; [lia|].
  split; [by rewrite H5|done].
Qed.

(** More fuel than the length of the range changes nothing. *)
Lemma matching_size_fuel n fuel1 fuel2 alo ahi blo bhi :
  alo ≤ ahi → ahi - alo ≤ n → ahi - alo < fuel1 → ahi - alo < fuel2 →
  Difflib.matching_size a b b2j fuel1 alo ahi blo bhi
  = Difflib.matching_size a b b2j fuel2 alo ahi blo bhi.
Proof.
  revert fuel1 fuel2 alo ahi blo bhi.
  induction n as [|n IH]; intros fuel1 fuel2 alo ahi blo bhi Hlo Hn H1 H2;
    (destruct fuel1 as [|fuel1]; [lia|]); (destruct fuel2 as [|fuel2]; [lia|]);
    simpl; pose proof (find_longest_match_bounds alo ahi blo bhi Hlo) as [Hi Hk];
    destruct (Difflib.find_longest_match a b b2j alo ahi blo bhi) as [[i j] k];
    simpl in *; destruct (decide (k = 0)); try done.
  - lia.
  - f_equal; [f_equal|].
    + destruct (decide (alo < i ∧ blo < j)); [|done]. apply IH; lia.
    + destruct (decide (i + k < ahi ∧ j + k < bhi)); [|done]. apply IH; lia.
Qed.

End matcher_bounds.

(** [ratio] is given enough fuel. *)
Lemma ratio_fuel_enough (x word : string) (fuel : nat) :
  length (Difflib.chars x) < fuel →
  Difflib.matching_size (Difflib.chars x) (Difflib.chars word)
    (Difflib.chain_b (Difflib.chars word)) fuel
    0 (length (Difflib.chars x)) 0 (length (Difflib.chars word))
  = Difflib.matching_size (Difflib.chars x) (Difflib.chars word)
      (Difflib.chain_b (Difflib.chars word)) (S (length (Difflib.chars x)))
      0 (length (Difflib.chars x)) 0 (length (Difflib.chars word)).
Proof.
  intros Hfuel. apply (matching_size_fuel _ _ _ (length (Difflib.chars x))); lia.
Qed.

Lemma elem_of_keys (lookup : gmap string (list MarkdownDocument)) (x : string) :
  x ∈ keys lookup ↔ is_Some (lookup !! x).
Proof.
  unfold keys. rewrite list_elem_of_fmap. split.
  - intros ([k v] & -> & Hin). apply elem_of_map_to_list in Hin. by exists v.
  - intros [v Hv]. exists (x, v). split; [done|]. by apply elem_of_map_to_list.
Qed.

Lemma NoDup_keys (lookup : gmap string (list MarkdownDocument)) : NoDup (keys lookup).
Proof. apply NoDup_fst_map_to_list. Qed.

(** C2. For a broken link whose base name is not a key of the index,
    [get_close_matches] is run on the base name and the keys with cutoff 0.8
    and at most 3 results: the matched keys are keys of the index with
    similarity at least 0.8, in descending order of similarity, and a key
    that passes the test is left out only when three keys at least as
    similar are returned. With at least one matched key the link goes to
    [suggestions] (and nowhere else) with the documents of the matched keys,
    key after key in that order; with none, which is the case exactly when
    no key passes the test, and so whenever no key reaches similarity 0.8, it
    goes to [no_matches] (and nowhere else) with an empty list. *)
Theorem classify_unknown_name
    (lookup : gmap string (list MarkdownDocument)) (broken_urls : list Problem)
    (problem : Problem) :
  problem ∈ broken_urls →
  lookup !! key_of problem = None →
  let r := classify_broken_urls lookup broken_urls in
  let key := key_of problem in
  let pks := Difflib.get_close_matches key (keys lookup) 3 (Q2Qc (4 # 5)) in
  let candidates := pk ← pks; default [] (lookup !! pk) in
  (length pks ≤ 3
   ∧ (∀ pk, pk ∈ pks →
        is_Some (lookup !! pk) ∧ (Q2Qc (4 # 5) ≤ Difflib.ratio pk key)%Qc)
   ∧ StronglySorted (λ x y, (Difflib.ratio y key ≤ Difflib.ratio x key)%Qc) pks
   ∧ (∀ pk y, pk ∈ pks → is_Some (lookup !! y) →
        Difflib.close_enough key (Q2Qc (4 # 5)) y → y ∉ pks →
        (Difflib.ratio y key ≤ Difflib.ratio pk key)%Qc ∧ length pks = 3)
   ∧ (pks = [] ↔ ∀ y, is_Some (lookup !! y) → ¬ Difflib.close_enough key (Q2Qc (4 # 5)) y)
   ∧ ((∀ y, is_Some (lookup !! y) → ¬ (Q2Qc (4 # 5) ≤ Difflib.ratio y key)%Qc) → pks = []))
  ∧ (pks ≠ [] →
       (problem, candidates) ∈ suggestions r
       ∧ (∀ b, b ≠ Suggested → problem ∉ (bucket b r).*1)
       ∧ (∀ d, d ∈ candidates ↔ ∃ pk docs, pk ∈ pks ∧ lookup !! pk = Some docs ∧ d ∈ docs))
  ∧ (pks = [] →
       (problem, []) ∈ no_matches r
       ∧ (∀ b, b ≠ NoMatch → problem ∉ (bucket b r).*1)).
Proof.
  intros Hin Hkey r key pks candidates.
  assert (pks = [] ↔ ∀ y, is_Some (lookup !! y) → ¬ Difflib.close_enough key (Q2Qc (4 # 5)) y)
    as Hnil.
  { unfold pks. rewrite DifflibFacts.get_close_matches_nil by lia.
    split; intros H y Hy; apply H; by apply elem_of_keys. }
  assert (verdict lookup problem
          = match pks with [] => (NoMatch, []) | _ => (Suggested, candidates) end) as Hv.
  { unfold verdict, suggested_keys, candidates, pks, key, n_default, cutoff.
    rewrite Hkey. by destruct (Difflib.get_close_matches _ _ _ _). }
  split; [|split].
  - split; [apply DifflibFacts.get_close_matches_length|].
    split.
    { intros pk Hpk. apply DifflibFacts.elem_of_get_close_matches in Hpk as [Hk Hc].
      split; [by apply elem_of_keys|]. apply Hc. }
    split; [apply DifflibFacts.get_close_matches_sorted|].
    split.
    { intros pk y Hpk Hy Hc Hny.
      eapply DifflibFacts.get_close_matches_best; eauto using NoDup_keys.
      by apply elem_of_keys. }
    split; [done|].
    intros Hnone. apply Hnil. intros y Hy Hc. apply (Hnone y Hy), Hc.
  - intros Hne. subst r.
    assert (verdict lookup problem = (Suggested, candidates)) as Hv'.
    { rewrite Hv. by destruct pks. }
    split; [|split].
    + change (suggestions ?r) with (bucket Suggested r).
      by rewrite classify_bucket, elem_of_filed.
    + intros b Hb. rewrite classify_bucket, elem_of_filed_fst, Hv'.
      simpl. intros [_ ?]. congruence.
    + intros d. unfold candidates. rewrite list_elem_of_bind. split.
      * intros (pk & Hd & Hpk). destruct (lookup !! pk) as [docs|] eqn:E.
        -- by exists pk, docs.
        -- by apply elem_of_nil in Hd.
      * intros (pk & docs & Hpk & E & Hd). exists pk. by rewrite E.
  - intros Hpks. subst r. rewrite Hpks in Hv.
    split.
    + change (no_matches ?r) with (bucket NoMatch r).
      by rewrite classify_bucket, elem_of_filed.
    + intros b Hb. rewrite classify_bucket, elem_of_filed_fst, Hv.
      simpl. intros [_ ?]. congruence.
Qed.

(** ** str.replace *)

Module PyStrFacts.
Import PyStr.

Lemma app_nil_l s : "" +:+ s = s.
Proof. reflexivity. Qed.

Lemma app_cons c s t : String c s +:+ t = String c (s +:+ t).
Proof. reflexivity. Qed.

Lemma app_nil_r s : s +:+ "" = s.
Proof. induction s as [|c s IH]; [done|]. by rewrite app_cons, IH. Qed.

Lemma app_assoc s1 s2 s3 : (s1 +:+ s2) +:+ s3 = s1 +:+ s2 +:+ s3.
Proof. induction s1 as [|c s1 IH]; [done|]. by rewrite !app_cons, IH. Qed.

Lemma len_app s1 s2 : len (s1 +:+ s2) = len s1 + len s2.
Proof.
  unfold len. induction s1 as [|c s1 IH]; [done|].
  rewrite app_cons. simpl. by rewrite IH.
Qed.

Lemma drop_nil k : drop k "" = "".
Proof. by destruct k. Qed.

Lemma drop_app_len s1 s2 : drop (len s1) (s1 +:+ s2) = s2.
Proof. induction s1 as [|c s1 IH]; [done|]. rewrite app_cons. apply IH. Qed.

Lemma drop_drop j k s : drop j (drop k s) = drop (k + j) s.
Proof.
  revert s. induction k as [|k IH]; intros s; simpl; [done|].
  destruct s; [by rewrite drop_nil|]. apply IH.
Qed.

Lemma take_drop n s : take n s +:+ drop n s = s.
Proof.
  revert s. induction n as [|n IH]; intros [|c s]; simpl; try done.
  by rewrite app_cons, IH.
Qed.

Lemma startswith_app old s : startswith old (old +:+ s) = true.
Proof.
  induction old as [|a old IH]; [done|].
  rewrite app_cons. simpl. by rewrite decide_True.
Qed.

Lemma startswith_nil old : old ≠ "" → startswith old "" = false.
Proof. by destruct old. Qed.

(** The scan passes the characters of an occurrence without looking. *)
Lemma replace_scan_skip old new k s :
  replace_scan old new k s = replace_scan old new 0 (drop k s).
Proof.
  revert s. induction k as [|k IH]; intros s; [done|].
  destruct s as [|c s]; [done|]. simpl. apply IH.
Qed.

(** Where [old] starts, [new] is put and the scan goes on behind it. *)
Lemma replace_scan_here old new s :
  old ≠ "" → startswith old s = true →
  replace_scan old new 0 s = new +:+ replace_scan old new 0 (drop (len old) s).
Proof.
  intros Hold Hs. destruct s as [|c s].
  { by rewrite startswith_nil in Hs. }
  cbn [replace_scan]. rewrite Hs. f_equal.
  rewrite replace_scan_skip. destruct old as [|a old]; [done|].
  unfold len. simpl. by rewrite Nat.sub_0_r.
Qed.

(** Elsewhere the character is kept. *)
Lemma replace_scan_pass old new c s :
  startswith old (String c s) = false →
  replace_scan old new 0 (String c s) = String c (replace_scan old new 0 s).
Proof. intros Hs. cbn [replace_scan]. by rewrite Hs. Qed.

Lemma absent_tail old c s : absent old (String c s) → absent old s.
Proof. intros H k. apply (H (S k)). Qed.

(** A string without occurrence is left as it is. *)
Lemma replace_scan_absent old new s :
  absent old s → replace_scan old new 0 s = s.
Proof.
  induction s as [|c s IH]; intros H; [done|].
  rewrite replace_scan_pass by apply (H 0).
  f_equal. apply IH. by eapply absent_tail.
Qed.

Lemma startswith_cut old s t :
  len old ≤ len s → startswith old (s +:+ t) = startswith old s.
Proof.
  unfold len. revert s. induction old as [|a old IH]; intros [|c s]; try done.
  - simpl. lia.
  - rewrite app_cons. simpl. intros Hlen. case_decide; [apply IH; lia|done].
Qed.

(** A clean segment followed by [old]: the segment is kept, [old] becomes
    [new], and the scan goes on with the rest. *)
Lemma replace_scan_segment old new seg rest :
  old ≠ "" → clean old seg →
  replace_scan old new 0 (seg +:+ old +:+ rest)
  = seg +:+ new +:+ replace_scan old new 0 rest.
Proof.
  intros Hold. induction seg as [|c seg IH]; intros Hc.
  - rewrite !app_nil_l. rewrite replace_scan_here by (done || apply startswith_app).
    by rewrite drop_app_len.
  - rewrite !app_cons. rewrite replace_scan_pass.
    + f_equal. apply IH. intros k Hk. apply (Hc (S k)). unfold len in *. simpl. lia.
    + specialize (Hc 0). rewrite app_cons in Hc. simpl in Hc.
      rewrite <- app_assoc, <- app_cons.
      rewrite startswith_cut; [apply Hc; unfold len; simpl; lia|].
      rewrite <- app_cons, len_app. lia.
Qed.

(** Every occurrence is replaced, not only the first one. *)
Lemma replace_every old new segs post :
  old ≠ "" → Forall (clean old) segs → absent old post →
  replace (followed_by old segs +:+ post) old new = followed_by new segs +:+ post.
Proof.
  intros Hold Hsegs Hpost.
  assert (replace_scan old new 0 (followed_by old segs +:+ post)
          = followed_by new segs +:+ post) as H.
  { induction Hsegs as [|seg segs Hseg _ IH].
    - rewrite !app_nil_l. by apply replace_scan_absent.
    - unfold followed_by, cat in *. rewrite !fmap_cons. simpl.
      rewrite !app_assoc. rewrite replace_scan_segment by done.
      by rewrite IH. }
  unfold replace. by destruct old.
Qed.

(** With [old] at one place only, the line keeps everything before and
    behind that place. *)
Lemma replace_only_at old new line n :
  old ≠ "" → occurs_only_at old line n →
  replace line old new = take n line +:+ new +:+ drop (n + len old) line.
Proof.
  intros Hold Hn.
  assert (replace_scan old new 0 line
          = take n line +:+ new +:+ drop (n + len old) line) as H.
  { revert line Hn. induction n as [|n IH]; intros line Hn.
    - assert (startswith old line = true) as H0 by (by apply (Hn 0)).
      rewrite replace_scan_here by done.
      assert (take 0 line = "") as -> by (by destruct line).
      rewrite app_nil_l. f_equal. apply replace_scan_absent. intros k.
      rewrite drop_drop.
      destruct (startswith old (drop (0 + len old + k) line)) eqn:E; [|done].
      apply Hn in E. destruct old; [done|]. unfold len in E. simpl in E. lia.
    - destruct line as [|c line].
      { assert (startswith old (drop (S n) "") = true) as H0 by (by apply Hn).
        simpl in H0. by rewrite startswith_nil in H0. }
      rewrite replace_scan_pass.
      + simpl. rewrite app_cons. f_equal. apply IH. intros k.
        rewrite <- (Nat.succ_inj_wd k n). apply (Hn (S k)).
      + destruct (startswith old (String c line)) eqn:E; [|done].
        by apply (Hn 0) in E.
  }
  unfold replace. by destruct old.
Qed.

End PyStrFacts.

(** ** write_corrected_url *)

Section repair_facts.
Variable relative_path : Path → Path → Path.

(** What one round of the loop does. *)
Lemma correct_url_cases root line url matches w :
  correct_url relative_path root ((line, url), matches) w
  = match matches, contents (doc w) !! line,
          PurePath.relative_to (filename (doc w)) root with
    | [], _, _ => (Raise IndexError, w)
    | _ :: _, None, _ => (Raise IndexError, w)
    | _ :: _, Some _, None => (Raise ValueError, w)
    | m0 :: _, Some old_line, Some rel =>
        let new := PurePath.str (new_url_of relative_path (doc w) m0) in
        (Ok tt,
         MkWorld (MkDoc (filename (doc w))
                        (<[line := PyStr.replace old_line (url_md url) new]>
                           (contents (doc w)))
                        (relative_links (doc w)))
                 (disk w)
                 ((log w ++ ["File: " +:+ PurePath.str rel])
                    ++ ["Line: " +:+ pretty line +:+ " - Replacing `" +:+ url_md url
                        +:+ "` -> `" +:+ new +:+ "`"]))
    end.
Proof.
  unfold correct_url, Py.bind, Py.get, Py.index, Py.ret, Py.raise. simpl.
  destruct matches as [|m0 ms]; [done|]. simpl.
  destruct (contents (doc w) !! line) as [old_line|]; [|done].
  by destruct (PurePath.relative_to (filename (doc w)) root).
Qed.

Lemma rewritten_ext md1 md2 root problems lines :
  filename md1 = filename md2 →
  rewritten relative_path md1 root problems lines
  = rewritten relative_path md2 root problems lines.
Proof.
  intros Hf. revert lines.
  induction problems as [|[[line url] matches] rest IH]; intros lines; [done|].
  simpl. destruct matches as [|m0 ms]; [done|]. destruct (lines !! line); [|done].
  rewrite Hf. destruct (PurePath.relative_to (filename md2) root); [|done].
  unfold new_url_of. rewrite Hf. apply IH.
Qed.

(** The loop over the entries never touches the file system, the path of
    the document or its links, and it leaves the lines as [rewritten]
    says. *)
Lemma for_correct_url root problems w :
  let w' := (Py.for_ problems (correct_url relative_path root) w).2 in
  disk w' = disk w
  ∧ filename (doc w') = filename (doc w)
  ∧ relative_links (doc w') = relative_links (doc w)
  ∧ contents (doc w') = rewritten relative_path (doc w) root problems (contents (doc w)).
Proof.
  revert w. induction problems as [|[[line url] matches] rest IH]; intros w; [done|].
  cbn [Py.for_ rewritten]. unfold Py.bind. rewrite correct_url_cases.
  destruct matches as [|m0 ms]; [done|].
  destruct (contents (doc w) !! line) as [old_line|]; [|done].
  destruct (PurePath.relative_to (filename (doc w)) root) as [rel|]; [|done].
  cbv zeta. destruct (IH (MkWorld
      (MkDoc (filename (doc w))
         (<[line:=PyStr.replace old_line (url_md url)
                    (PurePath.str (new_url_of relative_path (doc w) m0))]> (contents (doc w)))
         (relative_links (doc w)))
      (disk w)
      ((log w ++ ["File: " +:+ PurePath.str rel])
         ++ ["Line: " +:+ pretty line +:+ " - Replacing `" +:+ url_md url
             +:+ "` -> `" +:+ PurePath.str (new_url_of relative_path (doc w) m0) +:+ "`"])))
    as (-> & -> & -> & ->).
  repeat split. by apply rewritten_ext.
Qed.

(** The call as a whole: the loop, then the choice on [dry_run]. *)
Lemma write_corrected_url_cases md problems root dry_run fs lg :
  write_corrected_url relative_path md problems root dry_run fs lg
  = match Py.for_ problems (correct_url relative_path root) (MkWorld md fs lg) with
    | (Raise e, w) => (Raise e, w)
    | (Ok _, w) =>
        if dry_run
        then (Ok PyNone, MkWorld (doc w) (disk w) (log w ++ ["------DRY-RUN------"]))
        else if FS.writable (disk w) (filename (doc w))
             then (Ok PyNone,
                   MkWorld (doc w)
                           (FS.write (disk w) (filename (doc w))
                                     (PyStr.cat (contents (doc w))))
                           (log w ++ ["Changes written..."]))
             else (Raise OSError, w)
    end.
Proof.
  unfold write_corrected_url, write_corrected_url_body, Py.bind.
  destruct (Py.for_ problems (correct_url relative_path root) (MkWorld md fs lg)) as [[[]|e] w];
    [|done].
  destruct dry_run; [done|].
  unfold write_lines, Py.bind, Py.get, Py.modify, Py.raise, log_info, Py.ret.
  by destruct (FS.writable (disk w) (filename (doc w))).
Qed.

(** The document object after the call does not depend on [dry_run]. *)
Lemma write_corrected_url_doc md problems root dry_run fs lg :
  doc (write_corrected_url relative_path md problems root dry_run fs lg).2
  = doc (Py.for_ problems (correct_url relative_path root) (MkWorld md fs lg)).2.
Proof.
  rewrite write_corrected_url_cases.
  destruct (Py.for_ problems (correct_url relative_path root) (MkWorld md fs lg)) as [[[]|e] w];
    [|done].
  destruct dry_run; [done|].
  by destruct (FS.writable (disk w) (filename (doc w))).
Qed.

Lemma write_corrected_url_contents md problems root dry_run fs lg :
  contents (doc (write_corrected_url relative_path md problems root dry_run fs lg).2)
  = rewritten relative_path md root problems (contents md).
Proof.
  rewrite write_corrected_url_doc.
  by destruct (for_correct_url root problems (MkWorld md fs lg)) as (_ & _ & _ & ->).
Qed.

(** The file system after the call. *)
Lemma write_corrected_url_disk md problems root dry_run fs lg :
  let '(res, w) := write_corrected_url relative_path md problems root dry_run fs lg in
  disk w = match res, dry_run with
           | Ok _, false => FS.write fs (filename md) (PyStr.cat (contents (doc w)))
           | _, _ => fs
           end.
Proof.
  rewrite write_corrected_url_cases.
  pose proof (for_correct_url root problems (MkWorld md fs lg)) as (Hd & Hf & _).
  destruct (Py.for_ problems (correct_url relative_path root) (MkWorld md fs lg)) as [[[]|e] w];
    simpl in *; [|done].
  destruct dry_run; [done|].
  destruct (FS.writable (disk w) (filename (doc w))); simpl; [|done].
  by rewrite Hd, Hf.
Qed.

(** With applicable entries only, the loop comes to its end. *)
Lemma for_correct_url_ok md root problems w :
  filename (doc w) = filename md →
  length (contents (doc w)) = length (contents md) →
  Forall (applicable md root) problems →
  (Py.for_ problems (correct_url relative_path root) w).1 = Ok tt.
Proof.
  intros Hf Hl Hall. revert w Hf Hl.
  induction Hall as [|[[line url] matches] rest (Hm & Hline & Hrel) _ IH];
    intros w Hf Hl; [done|].
  cbn [Py.for_]. unfold Py.bind. rewrite correct_url_cases. simpl in *.
  destruct matches as [|m0 ms]; [done|].
  destruct (lookup_lt_is_Some_2 (contents (doc w)) line) as [old_line ->]; [lia|].
  rewrite Hf. destruct Hrel as [rel ->]. cbv zeta.
  apply IH; simpl; [done|]. by rewrite length_insert.
Qed.

Lemma write_corrected_url_ok md problems root dry_run fs lg :
  Forall (applicable md root) problems →
  dry_run = true ∨ FS.writable fs (filename md) = true →
  (write_corrected_url relative_path md problems root dry_run fs lg).1 = Ok PyNone.
Proof.
  intros Hall Hw. rewrite write_corrected_url_cases.
  pose proof (for_correct_url root problems (MkWorld md fs lg)) as (Hd & Hf & _).
  pose proof (for_correct_url_ok md root problems (MkWorld md fs lg)
                eq_refl eq_refl Hall) as Hok.
  destruct (Py.for_ problems (correct_url relative_path root) (MkWorld md fs lg)) as [res w].
  simpl in *. subst res. destruct dry_run; [done|].
  destruct Hw as [|Hw]; [done|]. by rewrite Hd, Hf, Hw.
Qed.

Lemma rewritten_app md root earlier rest lines :
  length lines = length (contents md) →
  Forall (applicable md root) earlier →
  rewritten relative_path md root (earlier ++ rest) lines
  = rewritten relative_path md root rest (rewritten relative_path md root earlier lines).
Proof.
  intros Hl Hall. revert lines Hl.
  induction Hall as [|[[line url] matches] earlier (Hm & Hline & Hrel) _ IH];
    intros lines Hl; [done|].
  simpl in *. destruct matches as [|m0 ms]; [done|].
  destruct (lookup_lt_is_Some_2 lines line) as [old_line ->]; [lia|].
  destruct Hrel as [rel ->]. apply IH. by rewrite length_insert.
Qed.

End repair_facts.

(** The tests decide the three conditions on occurrences. *)
Lemma absentb_sound old s : absentb old s = true → absent old s.
Proof.
  unfold absentb, absent. rewrite negb_true_iff.
  induction s as [|c s IH]; simpl; intros H k.
  - rewrite PyStrFacts.drop_nil. by apply orb_false_elim in H as [? _].
  - apply orb_false_elim in H as [H0 H]. destruct k; [done|]. by apply IH.
Qed.

Lemma cleanb_sound old seg : cleanb old seg = true → clean old seg.
Proof.
  unfold clean. induction seg as [|c seg IH]; simpl; intros H k Hk.
  - unfold PyStr.len in Hk. simpl in Hk. lia.
  - apply andb_prop in H as [H0 H]. apply negb_true_iff in H0.
    destruct k; [done|]. rewrite PyStrFacts.app_cons. simpl.
    apply IH; [done|]. unfold PyStr.len in *. simpl in Hk. lia.
Qed.

Lemma occurs_only_atb_sound old line n :
  occurs_only_atb old line n = true → old ≠ "" ∧ occurs_only_at old line n.
Proof.
  unfold occurs_only_at. revert line. induction n as [|n IH]; intros line H.
  - simpl in H. apply andb_prop in H as [H Hold]. apply andb_prop in H as [H0 H].
    apply negb_true_iff, bool_decide_eq_false in Hold. split; [done|].
    apply absentb_sound in H. intros [|k]; [done|]. split; [|done].
    destruct line as [|c line]; simpl.
    + by rewrite PyStrFacts.startswith_nil.
    + specialize (H k). simpl in H. congruence.
  - destruct line as [|c line]; [done|]. simpl in H.
    apply andb_prop in H as [H0 H]. apply negb_true_iff in H0.
    destruct (IH _ H) as [Hold Hn]. split; [done|].
    intros [|k]; simpl.
    + split; [|done]. simpl in H0. congruence.
    + rewrite Hn. lia.
Qed.

(** C3 (amended). For an entry of the [exact_match] bucket, the new link is the
    relative path from the directory of the document to the directory of the
    candidate, joined with the base name of the candidate, and the line of
    the entry, as the entries before it have left it, becomes that line with
    every occurrence of the raw target replaced by the new link; the other
    lines stay as they are. When the raw target stands at one place of the
    line only, the line keeps all that is before and behind that place: link
    text, anchor, prose. *)
Theorem write_corrected_url_rewrites_line
    (relative_path : Path → Path → Path) (md m0 : MarkdownDocument)
    (ms : list MarkdownDocument) (line : nat) (url : Url) (root : Path)
    (dry_run : bool) (fs : FileSystem) (lg : list string)
    (earlier : list Classified) (old_line : string) :
  Forall (applicable md root) earlier →
  let before := rewritten relative_path md root earlier (contents md) in
  before !! line = Some old_line →
  is_Some (PurePath.relative_to (filename md) root) →
  let new := PurePath.str
               (PurePath.joinpath
                  (relative_path (PurePath.parent (filename md))
                                 (PurePath.parent (filename m0)))
                  (PurePath.name (filename m0))) in
  let after := contents (doc (write_corrected_url relative_path md
                                (earlier ++ [((line, url), m0 :: ms)])
                                root dry_run fs lg).2) in
  after = <[line := PyStr.replace old_line (url_md url) new]> before
  ∧ (∀ i, i ≠ line → after !! i = before !! i)
  ∧ (∀ n, url_md url ≠ "" → occurs_only_at (url_md url) old_line n →
       after !! line
       = Some (PyStr.take n old_line +:+ new
               +:+ PyStr.drop (n + PyStr.len (url_md url)) old_line)).
Proof.
  intros Hall before Hline [rel Hrel] new after.
  assert (after = <[line := PyStr.replace old_line (url_md url) new]> before) as Ha.
  { unfold after. rewrite write_corrected_url_contents.
    rewrite rewritten_app by done. fold before. simpl.
    by rewrite Hline, Hrel. }
  split; [done|]. rewrite Ha. split.
  - intros i Hi. by rewrite list_lookup_insert_ne.
  - intros n Hold Hn. rewrite list_lookup_insert_eq by (by eapply lookup_lt_Some).
    f_equal. by apply PyStrFacts.replace_only_at.
Qed.

(** C4 (amended). On a line in which the raw target occurs several times,
    every occurrence is replaced, from left to right, not only the first
    one: a line made of segments each followed by the raw target, and of a
    rest without it, becomes the same segments each followed by the new
    link, and the rest. *)
Theorem write_corrected_url_replaces_every_occurrence
    (relative_path : Path → Path → Path) (md m0 : MarkdownDocument)
    (ms : list MarkdownDocument) (line : nat) (url : Url) (root : Path)
    (dry_run : bool) (fs : FileSystem) (lg : list string)
    (earlier : list Classified) (segs : list string) (post : string) :
  Forall (applicable md root) earlier →
  rewritten relative_path md root earlier (contents md) !! line
  = Some (followed_by (url_md url) segs +:+ post) →
  url_md url ≠ "" →
  Forall (clean (url_md url)) segs →
  absent (url_md url) post →
  is_Some (PurePath.relative_to (filename md) root) →
  contents (doc (write_corrected_url relative_path md
                   (earlier ++ [((line, url), m0 :: ms)]) root dry_run fs lg).2) !! line
  = Some (followed_by (PurePath.str (new_url_of relative_path md m0)) segs +:+ post).
Proof.
  intros Hall Hline Hold Hsegs Hpost [rel Hrel].
  rewrite write_corrected_url_contents, rewritten_app by done.
  simpl. rewrite Hline, Hrel.
  rewrite list_lookup_insert_eq by (by eapply lookup_lt_Some).
  f_equal. by apply PyStrFacts.replace_every.
Qed.

(** C5. With [dry_run] set, [write_corrected_url] leaves the file system as it
    was, whatever happens; the file system changes only with [dry_run]
    unset, and then the file of the document holds the rewritten lines, one
    after the other, when the call returns, and nothing is written when it
    raises. *)
Theorem dry_run_writes_no_file
    (relative_path : Path → Path → Path) (md : MarkdownDocument)
    (problems : list Classified) (root : Path) (fs : FileSystem) (lg : list string) :
  disk (write_corrected_url relative_path md problems root true fs lg).2 = fs
  ∧ (∀ dry_run,
       disk (write_corrected_url relative_path md problems root dry_run fs lg).2 ≠ fs →
       dry_run = false)
  ∧ (let '(res, w) := write_corrected_url relative_path md problems root false fs lg in
     match res with
     | Ok _ =>
         disk w = FS.write fs (filename md)
                    (PyStr.cat (rewritten relative_path md root problems (contents md)))
     | Raise _ => disk w = fs
     end).
Proof.
  assert (disk (write_corrected_url relative_path md problems root true fs lg).2 = fs) as Hdry.
  { pose proof (write_corrected_url_disk relative_path md problems root true fs lg) as H.
    destruct (write_corrected_url relative_path md problems root true fs lg) as [[] w];
      by simpl in *. }
  split; [done|]. split.
  - intros [] H; [|done]. by destruct H.
  - pose proof (write_corrected_url_disk relative_path md problems root false fs lg) as H.
    pose proof (write_corrected_url_contents relative_path md problems root false fs lg) as Hc.
    destruct (write_corrected_url relative_path md problems root false fs lg) as [[] w];
      simpl in *; [|done].
    by rewrite <- Hc.
Qed.

(** C10. The lines of the document object are rewritten before [dry_run] is
    looked at: after a dry run the document in memory is the same as after
    a real run, its lines are the rewritten ones, and no file was written. *)
Theorem dry_run_rewrites_lines_in_memory
    (relative_path : Path → Path → Path) (md : MarkdownDocument)
    (problems : list Classified) (root : Path) (fs : FileSystem) (lg : list string) :
  let dry := write_corrected_url relative_path md problems root true fs lg in
  let wet := write_corrected_url relative_path md problems root false fs lg in
  doc dry.2 = doc wet.2
  ∧ contents (doc dry.2) = rewritten relative_path md root problems (contents md)
  ∧ disk dry.2 = fs.
Proof.
  intros dry wet. subst dry wet. split; [|split].
  - by rewrite !write_corrected_url_doc.
  - apply write_corrected_url_contents.
  - pose proof (write_corrected_url_disk relative_path md problems root true fs lg) as H.
    destruct (write_corrected_url relative_path md problems root true fs lg) as [[] w];
      by simpl in *.
Qed.

(** C9 (amended). [write_corrected_url] has no [return] statement: whenever it
    returns, it returns [None], and it does return when every entry can be
    applied and either [dry_run] is set or the file can be opened for
    writing. The number of changed lines is not handed back. *)
Theorem write_corrected_url_returns_None
    (relative_path : Path → Path → Path) (md : MarkdownDocument)
    (problems : list Classified) (root : Path) (dry_run : bool)
    (fs : FileSystem) (lg : list string) :
  (∀ v, (write_corrected_url relative_path md problems root dry_run fs lg).1 = Ok v →
        v = PyNone)
  ∧ (Forall (applicable md root) problems →
     dry_run = true ∨ FS.writable fs (filename md) = true →
     (write_corrected_url relative_path md problems root dry_run fs lg).1 = Ok PyNone).
Proof.
  split; [|apply write_corrected_url_ok].
  intros v. rewrite write_corrected_url_cases.
  destruct (Py.for_ problems (correct_url relative_path root) (MkWorld md fs lg))
    as [[[]|e] w]; [|done].
  destruct dry_run; simpl; [congruence|].
  destruct (FS.writable (disk w) (filename (doc w))); simpl; [congruence|done].
Qed.

(** * The properties on the small corpus *)

Module OnCorpus.
Import Corpus.

(** The links of [z] that lead nowhere: all but the one to [y.md]. *)
Example broken_links_of_z : find_broken_urls z file_system = broken_in_z.
Proof. vm_compute. reflexivity. Qed.

(** One link per bucket. *)
Example classes_of_z :
  let r := classify_broken_urls index broken_in_z in
  no_matches r = [((2, to_nothing), [])]
  ∧ suggestions r = [((1, to_reprat), [report])]
  ∧ exact_match r = [((4, to_report), [report])]
  ∧ exact_matches r = [((0, to_guide), [guide_d; guide_e])].
Proof. vm_compute. done. Qed.

(** Two entries for one line: the second pass replaces the raw target
    inside the link the first pass has put. *)
Example two_entries_on_one_line :
  contents (doc (write_corrected_url relative_path_model v [fix_old_a; fix_old_b]
                   root_dir true file_system []).2)
  = ["[a](../c/../c/old.md) and [b](../c/../c/old.md)" +:+ nl].
Proof. vm_compute. reflexivity. Qed.

(** A dry run rewrites the line in memory and leaves the file. *)
Example dry_run_on_x :
  let w := (write_corrected_url relative_path_model x [fix_report]
              root_dir true file_system []).2 in
  contents (doc w) !! 1
    = Some ("See [the report](../c/report.md#intro) for details." +:+ nl)
  ∧ files (disk w) !! "/docs/a/x.md" = Some "stale"
  ∧ log w = ["File: a/x.md";
             "Line: 1 - Replacing `../b/report.md` -> `../c/report.md`";
             "------DRY-RUN------"].
Proof. vm_compute. done. Qed.

(** A real run writes the rewritten lines. *)
Example real_run_on_x :
  let w := (write_corrected_url relative_path_model x [fix_report]
              root_dir false file_system []).2 in
  files (disk w) !! "/docs/a/x.md"
  = Some ("# X" +:+ nl +:+ "See [the report](../c/report.md#intro) for details." +:+ nl).
Proof. vm_compute. reflexivity. Qed.

End OnCorpus.

(** C1, on the corpus: [report.md] has one document, [guide.md] has two. *)
Lemma classify_exact_name_witness :
  ((4, Corpus.to_report), [Corpus.report])
    ∈ exact_match (classify_broken_urls Corpus.index Corpus.broken_in_z)
  ∧ ((0, Corpus.to_guide), [Corpus.guide_d; Corpus.guide_e])
    ∈ exact_matches (classify_broken_urls Corpus.index Corpus.broken_in_z).
Proof.
  split.
  - refine (proj1 (proj1 (classify_exact_name Corpus.index Corpus.broken_in_z
                            (4, Corpus.to_report) [Corpus.report] _ _) _)).
    + apply (bool_decide_unpack _). vm_compute. reflexivity.
    + vm_compute. reflexivity.
    + reflexivity.
  - refine (proj1 (proj1 (proj2 (classify_exact_name Corpus.index Corpus.broken_in_z
                                   (0, Corpus.to_guide)
                                   [Corpus.guide_d; Corpus.guide_e] _ _)) _)).
    + apply (bool_decide_unpack _). vm_compute. reflexivity.
    + vm_compute. reflexivity.
    + simpl. lia.
Defined.

(** C2, on the corpus: [reprat.md] is close to [report.md] only, and nothing
    is close to [zzz.txt]. *)
Lemma classify_unknown_name_witness :
  ((1, Corpus.to_reprat), [Corpus.report])
    ∈ suggestions (classify_broken_urls Corpus.index Corpus.broken_in_z).
Proof.
  assert ((1, Corpus.to_reprat) ∈ Corpus.broken_in_z) as Hin.
  { apply (bool_decide_unpack _). vm_compute. reflexivity. }
  assert (Corpus.index !! key_of (1, Corpus.to_reprat) = None) as Hkey.
  { vm_compute. reflexivity. }
  destruct (classify_unknown_name Corpus.index Corpus.broken_in_z
              (1, Corpus.to_reprat) Hin Hkey) as (_ & Hs & _).
  destruct Hs as (H & _).
  - vm_compute. discriminate.
  - vm_compute in H. vm_compute. exact H.
Defined.

(** C3, on the corpus: the link of [x] keeps its text and its anchor. *)
Lemma write_corrected_url_rewrites_line_witness :
  contents (doc (write_corrected_url relative_path_model Corpus.x [Corpus.fix_report]
                   Corpus.root_dir false Corpus.file_system []).2) !! 1
  = Some ("See [the report](../c/report.md#intro) for details." +:+ Corpus.nl).
Proof.
  destruct (write_corrected_url_rewrites_line relative_path_model
              Corpus.x Corpus.report [] 1 Corpus.to_report Corpus.root_dir false
              Corpus.file_system [] []
              ("See [the report](../b/report.md#intro) for details." +:+ Corpus.nl))
    as (_ & _ & H).
  - constructor.
  - reflexivity.
  - vm_compute. eauto.
  - destruct (occurs_only_atb_sound "../b/report.md"
                ("See [the report](../b/report.md#intro) for details." +:+ Corpus.nl) 17)
      as [Hold Hn]; [vm_compute; reflexivity|].
    exact (H 17 Hold Hn).
Defined.

(** C3 as worded fails on [y], whose link text is the file name: the text is
    rewritten with the target. *)
Lemma rest_of_line_not_kept :
  ¬ rest_of_line_kept relative_path_model Corpus.y Corpus.fix_old
      Corpus.root_dir false Corpus.file_system.
Proof.
  intros H.
  specialize (H ("Read [old.md](old.md) first." +:+ Corpus.nl) Corpus.old eq_refl eq_refl).
  vm_compute in H. discriminate H.
Qed.

(** C4, on the corpus: both links of [v] are rewritten by one entry. *)
Lemma write_corrected_url_replaces_every_occurrence_witness :
  contents (doc (write_corrected_url relative_path_model Corpus.v [Corpus.fix_old_a]
                   Corpus.root_dir false Corpus.file_system []).2) !! 0
  = Some ("[a](../c/old.md) and [b](../c/old.md)" +:+ Corpus.nl).
Proof.
  refine (write_corrected_url_replaces_every_occurrence relative_path_model
            Corpus.v Corpus.old [] 0 Corpus.to_old_a Corpus.root_dir false
            Corpus.file_system [] [] ["[a]("; ") and [b]("] (")" +:+ Corpus.nl)
            _ _ _ _ _ _).
  - constructor.
  - reflexivity.
  - discriminate.
  - repeat constructor; apply cleanb_sound; vm_compute; reflexivity.
  - apply absentb_sound. vm_compute. reflexivity.
  - vm_compute. eauto.
Defined.

(** C4 as worded fails on [v]: the second occurrence is replaced too. *)
Lemma not_only_first_replaced :
  ¬ only_first_replaced relative_path_model Corpus.v Corpus.fix_old_a
      Corpus.root_dir false Corpus.file_system.
Proof.
  intros H.
  specialize (H ("[a](old.md) and [b](old.md)" +:+ Corpus.nl) Corpus.old eq_refl eq_refl).
  vm_compute in H. discriminate H.
Qed.

(** C9, on the corpus: the call on [x] returns [None]. *)
Lemma write_corrected_url_returns_None_witness :
  (write_corrected_url relative_path_model Corpus.x [Corpus.fix_report]
     Corpus.root_dir false Corpus.file_system []).1 = Ok PyNone.
Proof.
  refine (proj2 (write_corrected_url_returns_None relative_path_model Corpus.x
                   [Corpus.fix_report] Corpus.root_dir false Corpus.file_system []) _ _).
  - apply (bool_decide_unpack _). vm_compute. reflexivity.
  - right. vm_compute. reflexivity.
Defined.

(** C9 as worded fails on [x]: one line changes and [None] comes back. *)
Lemma count_not_returned :
  ¬ returns_count relative_path_model Corpus.x [Corpus.fix_report]
      Corpus.root_dir false Corpus.file_system.
Proof. unfold returns_count. vm_compute. discriminate. Qed.


(** * Further properties of the module *)

(** ** classify_broken_urls *)

(** X1. What the entries of each bucket carry: an entry of [exact_match] has
    exactly one candidate, the one document of its base name; an entry of
    [exact_matches] has the documents of its base name, and not exactly one;
    an entry of [no_matches] has none and its base name is no key; an entry
    of [suggestions] has a base name that is no key and the documents of the
    keys proposed for it. *)
Theorem bucket_entries_shape
    (lookup : gmap string (list MarkdownDocument)) (broken_urls : list Problem)
    (entry : Classified) :
  let r := classify_broken_urls lookup broken_urls in
  (entry ∈ exact_match r →
     ∃ m, entry.2 = [m] ∧ lookup !! key_of entry.1 = Some [m])
  ∧ (entry ∈ exact_matches r →
     lookup !! key_of entry.1 = Some entry.2 ∧ length entry.2 ≠ 1)
  ∧ (entry ∈ no_matches r →
     entry.2 = [] ∧ lookup !! key_of entry.1 = None)
  ∧ (entry ∈ suggestions r →
     lookup !! key_of entry.1 = None
     ∧ suggested_keys lookup entry.1 ≠ []
     ∧ entry.2 = pk ← suggested_keys lookup entry.1; default [] (lookup !! pk)).
Proof.
  intros r. subst r. destruct entry as [problem c]. simpl.
  change (exact_match ?r) with (bucket ExactOne r).
  change (exact_matches ?r) with (bucket ExactMany r).
  change (no_matches ?r) with (bucket NoMatch r).
  change (suggestions ?r) with (bucket Suggested r).
  rewrite !classify_bucket, !elem_of_filed. unfold verdict.
  destruct (lookup !! key_of problem) as [docs|] eqn:E.
  - destruct (decide (length docs = 1)) as [Hl|Hl];
      (split; [|split; [|split]]); intros [_ Hv]; simplify_eq; try done.
    destruct c as [|m [|??]]; simplify_eq/=. by exists m.
  - destruct (suggested_keys lookup problem) as [|pk pks] eqn:Es;
      (split; [|split; [|split]]); intros [_ Hv]; by simplify_eq.
Qed.

(** X2. Only the base name of the target counts: two broken links of the
    input with the same base name are filed in the same bucket with the
    same candidates, whatever directories they name. *)
Theorem same_base_name_same_class
    (lookup : gmap string (list MarkdownDocument)) (broken_urls : list Problem)
    (p1 p2 : Problem) (b : Bucket) (c : list MarkdownDocument) :
  key_of p1 = key_of p2 →
  p2 ∈ broken_urls →
  (p1, c) ∈ bucket b (classify_broken_urls lookup broken_urls) →
  (p2, c) ∈ bucket b (classify_broken_urls lookup broken_urls).
Proof.
  intros Hkey Hin. rewrite classify_bucket, !elem_of_filed. intros [_ Hv].
  split; [done|]. rewrite <- Hv. unfold verdict, suggested_keys. by rewrite Hkey.
Qed.

(** X3. Classifying a list of broken links in one go or in two parts gives
    the same buckets: each bucket of the whole is the bucket of the first
    part followed by the bucket of the second. *)
Theorem classify_broken_urls_app
    (lookup : gmap string (list MarkdownDocument)) (l1 l2 : list Problem) (b : Bucket) :
  bucket b (classify_broken_urls lookup (l1 ++ l2))
  = bucket b (classify_broken_urls lookup l1) ++ bucket b (classify_broken_urls lookup l2).
Proof. rewrite !classify_bucket. apply filed_app. Qed.

(** X4. With an empty index every broken link is a dead end: all are filed
    in [no_matches], in their order, with no candidate, and the other
    buckets stay empty. *)
Theorem classify_broken_urls_empty_index (broken_urls : list Problem) :
  classify_broken_urls ∅ broken_urls
  = MkResults ((λ problem, (problem, [])) <$> broken_urls) [] [] [].
Proof.
  assert (∀ problem, verdict ∅ problem = (NoMatch, [])) as Hv.
  { intros problem. unfold verdict. rewrite lookup_empty.
    unfold suggested_keys, keys. by rewrite map_to_list_empty. }
  assert (∀ b, filed ∅ b broken_urls
               = if decide (b = NoMatch)
                 then (λ problem, (problem, [])) <$> broken_urls else []) as Hf.
  { intros b. induction broken_urls as [|p l IH]; [by destruct b|].
    change (p :: l) with ([p] ++ l). rewrite filed_app, IH.
    unfold filed. simpl. rewrite Hv. by destruct b. }
  pose proof (classify_bucket ∅ NoMatch broken_urls) as H1.
  pose proof (classify_bucket ∅ Suggested broken_urls) as H2.
  pose proof (classify_bucket ∅ ExactOne broken_urls) as H3.
  pose proof (classify_bucket ∅ ExactMany broken_urls) as H4.
  rewrite Hf in H1, H2, H3, H4. simpl in *.
  destruct (classify_broken_urls ∅ broken_urls). simpl in *. by subst.
Qed.

(** X5. The keys proposed for a broken link do not depend on the order in
    which the dictionary hands out its keys: any arrangement of the keys
    gives the same proposals, in the same order. *)
Theorem suggestions_independent_of_key_order
    (lookup : gmap string (list MarkdownDocument)) (ks : list string)
    (key : string) (n : nat) (c : Qc) :
  ks ≡ₚ keys lookup →
  Difflib.get_close_matches key ks n c
  = Difflib.get_close_matches key (keys lookup) n c.
Proof. apply DifflibFacts.get_close_matches_Permutation. Qed.

(** ** find_broken_urls *)

Lemma exists_mono (fs fs' : FileSystem) (p : Path) :
  files fs ⊆ files fs' → dirs fs ⊆ dirs fs' → cwd fs = cwd fs' →
  FS.exists_ fs p = true → FS.exists_ fs' p = true.
Proof.
  intros Hf Hd Hc. unfold FS.exists_, FS.key, FS.resolve. rewrite Hc.
  rewrite !orb_true_iff, !bool_decide_eq_true. intros [[v Hv]|Hin].
  - left. exists v. by eapply lookup_weaken.
  - right. by apply Hd.
Qed.

Lemma filter_sublist_impl {A} (P Q : A → Prop)
    `{∀ x, Decision (P x)} `{∀ x, Decision (Q x)} (l : list A) :
  (∀ x, P x → Q x) → filter P l `sublist_of` filter Q l.
Proof.
  intros HPQ. induction l as [|x l IH]; [done|].
  rewrite !filter_cons. destruct (decide (P x)) as [HP|HP].
  - rewrite decide_True by auto. by constructor.
  - destruct (decide (Q x)); [by constructor|done].
Qed.

(** X6. On file systems without symbolic links, as the ones described here
    are, putting files or directories back can only shorten the list of
    broken links: on a file system that has everything the first one has,
    [find_broken_urls] returns a sublist of what it returned before. (A
    symbolic link that is added can break a link, since [resolve] follows
    it.) *)
Theorem find_broken_urls_shrinks
    (md : MarkdownDocument) (fs fs' : FileSystem) :
  files fs ⊆ files fs' → dirs fs ⊆ dirs fs' → cwd fs = cwd fs' →
  find_broken_urls md fs' `sublist_of` find_broken_urls md fs.
Proof.
  intros Hf Hd Hc. unfold find_broken_urls.
  rewrite !find_broken_urls_fold. simpl.
  apply filter_sublist_impl. intros rurl Hn Hex. apply Hn.
  unfold target_exists in *.
  assert (∀ p, FS.resolve fs' p = FS.resolve fs p) as ->.
  { intros p. unfold FS.resolve. by rewrite Hc. }
  by eapply exists_mono.
Qed.

(** ** write_corrected_url *)

Lemma for_app {S A} (l1 l2 : list A) (body : A → Py S unit) (s : S) :
  Py.for_ (l1 ++ l2) body s
  = match Py.for_ l1 body s with
    | (Ok _, s') => Py.for_ l2 body s'
    | (Raise e, s') => (Raise e, s')
    end.
Proof.
  revert s. induction l1 as [|x l1 IH]; intros s; simpl; [done|].
  unfold Py.bind. destruct (body x s) as [[[]|e] s']; [apply IH|done].
Qed.

Lemma rewritten_length relative_path md root problems lines :
  length (rewritten relative_path md root problems lines) = length lines.
Proof.
  revert lines. induction problems as [|[[line url] matches] rest IH]; intros lines;
    simpl; [done|].
  destruct matches; [done|]. destruct (lines !! line); [|done].
  destruct (PurePath.relative_to (filename md) root); [|done].
  by rewrite IH, length_insert.
Qed.

(** X7. Whatever the outcome, [write_corrected_url] leaves every file other
    than the one of the document as it was, and changes no directory, no
    write protection and not the working directory. *)
Theorem write_corrected_url_touches_one_file
    (relative_path : Path → Path → Path) (md : MarkdownDocument)
    (problems : list Classified) (root : Path) (dry_run : bool)
    (fs : FileSystem) (lg : list string) :
  let w := (write_corrected_url relative_path md problems root dry_run fs lg).2 in
  dirs (disk w) = dirs fs
  ∧ readonly (disk w) = readonly fs
  ∧ cwd (disk w) = cwd fs
  ∧ ∀ path, path ≠ FS.key fs (filename md) →
            files (disk w) !! path = files fs !! path.
Proof.
  intros w. subst w.
  pose proof (write_corrected_url_disk relative_path md problems root dry_run fs lg) as H.
  destruct (write_corrected_url relative_path md problems root dry_run fs lg)
    as [[v|e] w]; simpl in *; rewrite H; [|done].
  destruct dry_run; [done|]. simpl. repeat split.
  intros path Hp. by rewrite lookup_insert_ne.
Qed.

(** X8. Whatever the outcome, the document keeps its path and the number of
    its lines: [write_corrected_url] assigns to [md.contents[line]] only, so
    it replaces lines and never adds or removes one. *)
Theorem write_corrected_url_keeps_shape
    (relative_path : Path → Path → Path) (md : MarkdownDocument)
    (problems : list Classified) (root : Path) (dry_run : bool)
    (fs : FileSystem) (lg : list string) :
  let w := (write_corrected_url relative_path md problems root dry_run fs lg).2 in
  filename (doc w) = filename md
  ∧ length (contents (doc w)) = length (contents md).
Proof.
  intros w. subst w. rewrite write_corrected_url_doc.
  destruct (for_correct_url relative_path root problems (MkWorld md fs lg))
    as (_ & -> & _ & ->).
  by rewrite rewritten_length.
Qed.

Lemma correct_url_refused relative_path md root entry w :
  filename (doc w) = filename md →
  length (contents (doc w)) = length (contents md) →
  ¬ applicable md root entry →
  correct_url relative_path root entry w = (Raise (refusal md entry), w).
Proof.
  intros Hf Hl Hna. destruct entry as [[line url] matches].
  rewrite correct_url_cases. unfold refusal, applicable in *. simpl in *.
  destruct matches as [|m0 ms].
  { rewrite decide_True by (by left). done. }
  destruct (contents (doc w) !! line) as [old_line|] eqn:E.
  - apply lookup_lt_Some in E. rewrite Hf.
    destruct (PurePath.relative_to (filename md) root) as [rel|] eqn:Er.
    + destruct Hna. repeat split; [done|lia|eauto].
    + rewrite decide_False; [done|]. intros [?|?]; [done|lia].
  - apply lookup_ge_None in E. rewrite decide_True by (right; lia). done.
Qed.

(** X9. An entry that cannot be applied (no candidate, a line number beyond
    the document, or a document that is not below [root]) ends the call
    with IndexError or ValueError. No file is written, also without
    [dry_run]; the entries after it are not looked at; but the lines
    that the entries before it have rewritten stay rewritten in memory. *)
Theorem write_corrected_url_stops_at_bad_entry
    (relative_path : Path → Path → Path) (md : MarkdownDocument)
    (earlier later : list Classified) (entry : Classified) (root : Path)
    (dry_run : bool) (fs : FileSystem) (lg : list string) :
  Forall (applicable md root) earlier →
  ¬ applicable md root entry →
  let out := write_corrected_url relative_path md (earlier ++ entry :: later)
               root dry_run fs lg in
  out.1 = Raise (refusal md entry)
  ∧ disk out.2 = fs
  ∧ contents (doc out.2) = rewritten relative_path md root earlier (contents md).
Proof.
  intros Hall Hna out. subst out. rewrite write_corrected_url_cases, for_app.
  pose proof (for_correct_url relative_path root earlier (MkWorld md fs lg))
    as (Hd & Hf & _ & Hc).
  pose proof (for_correct_url_ok relative_path md root earlier (MkWorld md fs lg)
                eq_refl eq_refl Hall) as Hok.
  destruct (Py.for_ earlier (correct_url relative_path root) (MkWorld md fs lg))
    as [res w]. simpl in *. subst res.
  cbn [Py.for_]. unfold Py.bind.
  rewrite (correct_url_refused relative_path md); [done..| |done].
  by rewrite Hc, rewritten_length.
Qed.

Lemma for_correct_url_log relative_path md root problems w :
  filename (doc w) = filename md →
  length (contents (doc w)) = length (contents md) →
  Forall (applicable md root) problems →
  log (Py.for_ problems (correct_url relative_path root) w).2
  = log w ++ (problems ≫= announcement relative_path md root).
Proof.
  intros Hf Hl Hall. revert w Hf Hl.
  induction Hall as [|[[line url] matches] rest (Hm & Hline & Hrel) _ IH];
    intros w Hf Hl.
  { simpl. by rewrite app_nil_r. }
  cbn [Py.for_]. unfold Py.bind. rewrite correct_url_cases. simpl in *.
  destruct matches as [|m0 ms]; [done|].
  destruct (lookup_lt_is_Some_2 (contents (doc w)) line) as [old_line ->]; [lia|].
  rewrite Hf. destruct Hrel as [rel Hrel]. rewrite Hrel. cbv zeta.
  rewrite IH; simpl; [|done|by rewrite length_insert].
  unfold announcement at 2. simpl. rewrite Hrel.
  unfold new_url_of. rewrite Hf. by rewrite <- !app_assoc.
Qed.

(** X10. The report of a call that goes through: for entries that can all be
    applied, the log grows by a "File:" and a "Line:" record per entry, in
    the order of the entries, and by one closing record, the dry-run mark
    or "Changes written...": 2 N + 1 records for N entries. *)
Theorem write_corrected_url_report
    (relative_path : Path → Path → Path) (md : MarkdownDocument)
    (problems : list Classified) (root : Path) (dry_run : bool)
    (fs : FileSystem) (lg : list string) :
  Forall (applicable md root) problems →
  dry_run = true ∨ FS.writable fs (filename md) = true →
  let w := (write_corrected_url relative_path md problems root dry_run fs lg).2 in
  log w = lg ++ (problems ≫= announcement relative_path md root)
             ++ [if dry_run then "------DRY-RUN------" else "Changes written..."]
  ∧ length (log w) = length lg + 2 * length problems + 1.
Proof.
  intros Hall Hw w.
  assert (log w = lg ++ (problems ≫= announcement relative_path md root)
                     ++ [if dry_run then "------DRY-RUN------" else "Changes written..."])
    as Hlog.
  { subst w. rewrite write_corrected_url_cases.
    pose proof (for_correct_url relative_path root problems (MkWorld md fs lg))
      as (Hd & Hf & _).
    pose proof (for_correct_url_ok relative_path md root problems (MkWorld md fs lg)
                  eq_refl eq_refl Hall) as Hok.
    pose proof (for_correct_url_log relative_path md root problems (MkWorld md fs lg)
                  eq_refl eq_refl Hall) as Hl.
    destruct (Py.for_ problems (correct_url relative_path root) (MkWorld md fs lg))
      as [res w1]. simpl in *. subst res.
    destruct dry_run; simpl.
    - by rewrite Hl, <- app_assoc.
    - destruct Hw as [|Hw]; [done|]. rewrite Hd, Hf, Hw. simpl.
      by rewrite Hl, <- app_assoc. }
  split; [done|]. rewrite Hlog, !length_app. simpl.
  assert (length (problems ≫= announcement relative_path md root)
          = 2 * length problems) as ->; [|lia].
  clear Hlog w Hw. induction Hall as [|entry rest (Hm & _ & [rel Hrel]) _ IH]; [done|].
  rewrite bind_cons, length_app, IH. unfold announcement. rewrite Hrel.
  destruct entry.2; [done|]. simpl. lia.
Qed.

(** X11. An entry whose raw target does not occur in its line changes no
    line: the document in memory is as before (and, without [dry_run], the
    file is rewritten from the unchanged lines all the same). *)
Theorem write_corrected_url_absent_target
    (relative_path : Path → Path → Path) (md : MarkdownDocument)
    (line : nat) (url : Url) (matches : list MarkdownDocument) (root : Path)
    (dry_run : bool) (fs : FileSystem) (lg : list string) (old_line : string) :
  contents md !! line = Some old_line →
  url_md url ≠ "" →
  absent (url_md url) old_line →
  contents (doc (write_corrected_url relative_path md [((line, url), matches)]
                   root dry_run fs lg).2)
  = contents md.
Proof.
  intros Hline Hold Habs. rewrite write_corrected_url_contents. simpl.
  destruct matches as [|m0 ms]; [done|]. rewrite Hline.
  destruct (PurePath.relative_to (filename md) root); [|done].
  unfold PyStr.replace. destruct (url_md url) as [|c old] eqn:E; [done|].
  rewrite PyStrFacts.replace_scan_absent by done.
  by apply list_insert_id.
Qed.

(** ** The repair loop *)

(** X12. In a dry run the whole loop leaves the file system as it was,
    whether it comes to its end or stops at an exception. *)
Theorem repair_loop_dry_run_writes_no_file
    (relative_path : Path → Path → Path)
    (items : list (MarkdownDocument * list Classified)) (root : Path) (r : Run) :
  run_disk (repair_loop relative_path items root true r).2 = run_disk r.
Proof.
  revert r. induction items as [|[md problems] items IH]; intros r; simpl; [done|].
  pose proof (write_corrected_url_disk relative_path md problems root true
                (run_disk r) (run_log r)) as H.
  destruct (write_corrected_url relative_path md problems root true
              (run_disk r) (run_log r)) as [[v|e] w]; simpl in *.
  - rewrite IH. simpl. done.
  - done.
Qed.

(** ** Paths *)

Module PathFacts.

Lemma split_no_slash c : no_slash c = true → PyStr.split "/"%char c = [c].
Proof.
  induction c as [|a c IH]; simpl; [done|]. intros [Ha Hc]%andb_prop.
  apply negb_true_iff, bool_decide_eq_false in Ha.
  rewrite decide_False by done. by rewrite IH.
Qed.

Lemma split_cons_slash c s :
  no_slash c = true →
  PyStr.split "/"%char (c +:+ String "/"%char s) = c :: PyStr.split "/"%char s.
Proof.
  induction c as [|a c IH]; intros Hc.
  - rewrite PyStrFacts.app_nil_l. reflexivity.
  - simpl in Hc. apply andb_prop in Hc as [Ha Hc].
    apply negb_true_iff, bool_decide_eq_false in Ha.
    rewrite PyStrFacts.app_cons. simpl. rewrite decide_False by done.
    by rewrite IH.
Qed.

Lemma split_join t :
  t ≠ [] → Forall (λ c, no_slash c = true) t →
  PyStr.split "/"%char (PyStr.join "/" t) = t.
Proof.
  intros Hne Hall. induction Hall as [|c t Hc Hall IH]; [done|].
  destruct t as [|c' t].
  - simpl. by apply split_no_slash.
  - unfold PyStr.join in *. cbn [String.concat].
    change ("/" +:+ ?x) with (String "/"%char x).
    rewrite split_cons_slash by done. f_equal. by apply IH.
Qed.

Lemma split_all_no_slash s : Forall (λ c, no_slash c = true) (PyStr.split "/"%char s).
Proof.
  induction s as [|a s IH]; simpl; [by repeat constructor|].
  destruct (decide (a = "/"%char)) as [->|Ha]; [by constructor|].
  destruct (PyStr.split "/"%char s) as [|w ws].
  - constructor; [|done]. simpl. by rewrite bool_decide_eq_false_2.
  - apply Forall_cons in IH as [Hw Hws]. constructor; [|done].
    simpl. rewrite Hw. by rewrite bool_decide_eq_false_2.
Qed.

(** Every path that comes from a string is well formed. *)
Lemma parse_wf s : wf_path (PurePath.parse s).
Proof.
  split.
  - simpl. unfold PurePath.splitroot.
    repeat (destruct (PyStr.startswith _ s)); auto.
  - simpl. apply Forall_forall. intros c Hc.
    apply list_elem_of_filter in Hc as [[H1 H2] Hin].
    pose proof (split_all_no_slash s) as Hall.
    rewrite Forall_forall in Hall. by repeat split; [..|apply Hall].
Qed.

Lemma splitroot_component c s :
  component_ok c → PurePath.splitroot (c +:+ s) = "".
Proof.
  intros (Hne & _ & Hs). destruct c as [|a c]; [done|].
  simpl in Hs. apply andb_prop in Hs as [Ha _].
  apply negb_true_iff, bool_decide_eq_false in Ha.
  rewrite PyStrFacts.app_cons. unfold PurePath.splitroot. simpl.
  rewrite !decide_False; [done|congruence..].
Qed.

Lemma join_cons_component c t :
  component_ok c → ∃ s, PyStr.join "/" (c :: t) = c +:+ s.
Proof.
  intros _. destruct t as [|c' t].
  - exists "". simpl. by rewrite PyStrFacts.app_nil_r.
  - by exists ("/" +:+ PyStr.join "/" (c' :: t)).
Qed.

Lemma filter_components t :
  Forall component_ok t → filter (λ x, x ≠ "" ∧ x ≠ ".") t = t.
Proof.
  induction 1 as [|c t (H1 & H2 & _) _ IH]; [done|].
  rewrite filter_cons, decide_True by done. by rewrite IH.
Qed.

Lemma components_no_slash t :
  Forall component_ok t → Forall (λ c, no_slash c = true) t.
Proof. intros H. eapply Forall_impl; [exact H|]. by intros c (_ & _ & ?). Qed.

Lemma startswith_cons a p s :
  PyStr.startswith (String a p) (String a s) = PyStr.startswith p s.
Proof. simpl. by rewrite decide_True. Qed.

Lemma startswith_slash_more p j :
  PyStr.startswith "/" j = false → PyStr.startswith (String "/"%char p) j = false.
Proof.
  destruct j as [|a j]; [done|]. simpl. by destruct (decide ("/"%char = a)).
Qed.

Lemma split_slash s :
  PyStr.split "/"%char (String "/"%char s) = "" :: PyStr.split "/"%char s.
Proof. reflexivity. Qed.

(** [Path(str(p)) == p] *)
Lemma parse_str p : wf_path p → PurePath.parse (PurePath.str p) = p.
Proof.
  destruct p as [r t]. intros [Hr Ht]. simpl in *.
  destruct t as [|c t].
  { destruct Hr as [->|[->| ->]]; by vm_compute. }
  pose proof (Forall_inv Ht) as Hc.
  destruct (join_cons_component c t Hc) as [s Hs].
  assert (PyStr.split "/"%char (PyStr.join "/" (c :: t)) = c :: t) as Hsplit.
  { apply split_join; [done|]. by apply components_no_slash. }
  assert (PurePath.splitroot (PyStr.join "/" (c :: t)) = ""
          ∧ PyStr.startswith "/" (PyStr.join "/" (c :: t)) = false) as Hroot.
  { rewrite Hs. split; [by apply splitroot_component|].
    destruct Hc as (Hne & _ & Hsl). destruct c as [|a c]; [done|].
    simpl in Hsl. apply andb_prop in Hsl as [Ha _].
    apply negb_true_iff, bool_decide_eq_false in Ha.
    rewrite PyStrFacts.app_cons. simpl. rewrite decide_False; [done|congruence]. }
  destruct Hroot as [Hsr Hsw].
  assert (∀ r', PurePath.str (MkPath r' (c :: t)) = r' +:+ PyStr.join "/" (c :: t))
    as Hstr by (by intros [|??]).
  rewrite Hstr. clear Hstr Hs. unfold PurePath.parse.
  remember (PyStr.join "/" (c :: t)) as j eqn:Hj. clear Hj.
  destruct Hr as [->|[->| ->]].
  - rewrite PyStrFacts.app_nil_l, Hsr, Hsplit. by rewrite filter_components.
  - change ("/" +:+ j) with (String "/"%char j).
    unfold PurePath.splitroot. rewrite !startswith_cons.
    rewrite (startswith_slash_more "/" j Hsw), Hsw.
    rewrite split_slash, Hsplit. f_equal.
    rewrite filter_cons, decide_False by (by intros [? _]).
    by rewrite filter_components.
  - change ("//" +:+ j) with (String "/"%char (String "/"%char j)).
    unfold PurePath.splitroot. rewrite !startswith_cons, Hsw.
    rewrite !split_slash, Hsplit. f_equal.
    rewrite filter_cons, decide_False by (by intros [? _]).
    rewrite filter_cons, decide_False by (by intros [? _]).
    by rewrite filter_components.
Qed.

Lemma parse_component c : component_ok c → PurePath.parse c = MkPath "" [c].
Proof.
  intros Hc. rewrite <- (parse_str (MkPath "" [c])) at 1; [|split; [by left|by constructor]].
  done.
Qed.

Lemma parent_name p :
  tail p ≠ [] →
  MkPath (root (PurePath.parent p)) (tail (PurePath.parent p) ++ [PurePath.name p]) = p.
Proof.
  destruct p as [r t]. simpl. intros Hne. unfold PurePath.parent, PurePath.name.
  simpl. destruct t as [|c t]; [done|]. cbn [root tail].
  f_equal. symmetry. by apply app_removelast_last.
Qed.

Lemma name_ok p : wf_path p → tail p ≠ [] → component_ok (PurePath.name p).
Proof.
  intros [_ Ht] Hne. rewrite Forall_forall in Ht. apply Ht.
  unfold PurePath.name. apply list_elem_of_In.
  destruct (exists_last Hne) as (l & c & ->). rewrite last_last.
  apply in_or_app. right. by left.
Qed.

Lemma normalize_snoc acc t c :
  c ≠ ".." → PurePath.normalize acc (t ++ [c]) = PurePath.normalize acc t ++ [c].
Proof.
  intros Hc. revert acc. induction t as [|x t IH]; intros acc; simpl.
  - rewrite decide_False by done. simpl. done.
  - destruct (decide (x = "..")); [destruct acc|]; apply IH.
Qed.

Lemma normalize_plain acc t :
  Forall (λ c, c ≠ "..") t → PurePath.normalize acc t = List.rev acc ++ t.
Proof.
  intros Ht. revert acc. induction Ht as [|c t Hc _ IH]; intros acc; simpl.
  - by rewrite app_nil_r.
  - rewrite decide_False by done. rewrite IH. simpl. by rewrite <- app_assoc.
Qed.

Lemma normalize_no_dotdot acc t :
  Forall (λ c, c ≠ "..") acc → Forall (λ c, c ≠ "..") (PurePath.normalize acc t).
Proof.
  revert acc. induction t as [|c t IH]; intros acc Hacc; simpl.
  - rewrite <- rev_alt || idtac. apply Forall_forall. intros x Hx.
    rewrite Forall_forall in Hacc. apply Hacc.
    apply list_elem_of_In in Hx. apply list_elem_of_In. by apply in_rev.
  - destruct (decide (c = "..")).
    + destruct acc as [|a acc]; apply IH; [done|]. by apply Forall_inv_tail in Hacc.
    + apply IH. by constructor.
Qed.

(** An absolute path is resolved on its own. *)
Lemma resolve_absolute fs p :
  root p ≠ "" → FS.resolve fs p = MkPath "/" (PurePath.normalize [] (tail p)).
Proof.
  intros Hp. unfold FS.resolve, PurePath.join.
  destruct (root p) as [|a r] eqn:E; [done|]. done.
Qed.

End PathFacts.

Lemma new_url_of_parts (relative_path : Path → Path → Path) (md m0 : MarkdownDocument) :
  wf_path (filename m0) → tail (filename m0) ≠ [] →
  let R := relative_path (PurePath.parent (filename md)) (PurePath.parent (filename m0)) in
  new_url_of relative_path md m0
  = MkPath (root R) (tail R ++ [PurePath.name (filename m0)]).
Proof.
  intros Hwf Hne R. unfold new_url_of, PurePath.joinpath.
  rewrite PathFacts.parse_component by (by apply PathFacts.name_ok).
  done.
Qed.

(** X14. The link that [write_corrected_url] writes ends in the base name of
    the candidate: read back as a path, its name is the name of the
    candidate's file, so a later classification of the corrected link looks
    up the very key the candidate was found under. *)
Theorem new_link_keeps_base_name
    (relative_path : Path → Path → Path) (md m0 : MarkdownDocument)
    (problem : Problem) :
  wf_path (filename m0) →
  tail (filename m0) ≠ [] →
  wf_path (relative_path (PurePath.parent (filename md))
                         (PurePath.parent (filename m0))) →
  url_md problem.2 = PurePath.str (new_url_of relative_path md m0) →
  key_of problem = PurePath.name (filename m0).
Proof.
  intros Hwf Hne [Hr Ht] Hurl. unfold key_of. rewrite Hurl.
  rewrite new_url_of_parts by done. cbv zeta.
  rewrite PathFacts.parse_str.
  - unfold PurePath.name. simpl. apply last_last.
  - split; [done|]. simpl. apply Forall_app. split; [done|].
    constructor; [|done]. by apply PathFacts.name_ok.
Qed.

(** X15. The corrected link leads to the candidate. If [relative_path] is
    right for the two directories (joined to the directory of the document
    and resolved, its result is the directory of the candidate), then the
    link written for an entry, resolved against the directory of the
    document as [find_broken_urls] does, is the path of the candidate; so
    when the candidate's file exists, the corrected link is not broken. *)
Theorem new_link_resolves_to_candidate
    (relative_path : Path → Path → Path) (md m0 : MarkdownDocument)
    (fs : FileSystem) (rurl : Problem) :
  root (filename md) ≠ "" →
  wf_path (filename m0) →
  tail (filename m0) ≠ [] →
  PurePath.name (filename m0) ≠ ".." →
  wf_path (relative_path (PurePath.parent (filename md))
                         (PurePath.parent (filename m0))) →
  root (relative_path (PurePath.parent (filename md))
                      (PurePath.parent (filename m0))) = "" →
  FS.resolve fs (PurePath.join (PurePath.parent (filename md))
                   (relative_path (PurePath.parent (filename md))
                                  (PurePath.parent (filename m0))))
  = PurePath.parent (filename m0) →
  url_md rurl.2 = PurePath.str (new_url_of relative_path md m0) →
  FS.resolve fs (PurePath.joinpath (PurePath.parent (filename md)) (url_md rurl.2))
  = filename m0
  ∧ (FS.exists_ fs (filename m0) = true → target_exists md fs rurl).
Proof.
  intros Habs Hwf Hne Hdd [Hr Ht] HR Hdir Hurl.
  assert (root (PurePath.parent (filename md)) ≠ "") as Hrp.
  { unfold PurePath.parent. by destruct (tail (filename md)). }
  assert (FS.resolve fs (PurePath.joinpath (PurePath.parent (filename md))
                           (url_md rurl.2)) = filename m0) as Hres.
  { rewrite Hurl. unfold PurePath.joinpath.
    rewrite new_url_of_parts by done. cbv zeta.
    rewrite PathFacts.parse_str.
    2:{ split; [done|]. simpl. apply Forall_app. split; [done|].
        constructor; [|done]. by apply PathFacts.name_ok. }
    revert Hdir. rewrite !PathFacts.resolve_absolute.
    2,3: (unfold PurePath.join; rewrite HR; by cbn [root]).
    unfold PurePath.join. rewrite HR. cbn [root tail]. intros Hdir.
    rewrite app_assoc, PathFacts.normalize_snoc by done.
    pose proof (f_equal root Hdir) as H1. pose proof (f_equal tail Hdir) as H2.
    cbn [root tail] in H1, H2. rewrite H2, H1. by apply PathFacts.parent_name. }
  split; [done|]. intros Hex. unfold target_exists. by rewrite Hres.
Qed.

(** X16. [relative_to] and joining undo each other: when a path lies below
    [root], the part that is logged for it is a relative path, and joining
    it to [root] gives the path back; and what is joined to [root] is found
    again by [relative_to]. *)
Theorem relative_to_join (p r rel : Path) :
  (PurePath.relative_to p r = Some rel →
     root rel = "" ∧ PurePath.join r rel = p)
  ∧ (root rel = "" → PurePath.relative_to (PurePath.join r rel) r = Some rel).
Proof.
  split.
  - unfold PurePath.relative_to. case_decide as H; [|done].
    intros [= <-]. split; [done|]. destruct H as [Hr [k Hk]].
    unfold PurePath.join. simpl. destruct p as [pr pt]. simpl in *. subst.
    f_equal. by rewrite drop_app_length.
  - intros Hrel. unfold PurePath.join. rewrite Hrel.
    unfold PurePath.relative_to. simpl. rewrite decide_True.
    + rewrite drop_app_length. destruct rel. simpl in *. by subst.
    + split; [done|]. by apply prefix_app_r.
Qed.

(** X17. Resolving is idempotent. On a file system without symbolic links,
    as the ones described here are, and with a working directory under
    ["/"], a resolved path has the root ["/"], holds no [".."], and
    resolves to itself. *)
Theorem resolve_idempotent (fs : FileSystem) (p : Path) :
  root (cwd fs) = "/" →
  root (FS.resolve fs p) = "/"
  ∧ Forall (λ c, c ≠ "..") (tail (FS.resolve fs p))
  ∧ FS.resolve fs (FS.resolve fs p) = FS.resolve fs p.
Proof.
  intros Hcwd.
  assert (root (FS.resolve fs p) = "/") as Hroot.
  { unfold FS.resolve, PurePath.join. cbn [root].
    destruct (root p); [|done]. exact Hcwd. }
  assert (Forall (λ c, c ≠ "..") (tail (FS.resolve fs p))) as Hdd.
  { unfold FS.resolve. cbn [tail]. by apply PathFacts.normalize_no_dotdot. }
  split; [done|]. split; [done|].
  rewrite (PathFacts.resolve_absolute fs (FS.resolve fs p)) by (by rewrite Hroot).
  rewrite PathFacts.normalize_plain by done.
  destruct (FS.resolve fs p) as [r t]. simpl in *. by subst.
Qed.

(** ** display_classified_url *)

Module DisplayFacts.

Lemma for_logs_as {A} (body : A → Py (list string) unit)
    (good : A → Prop) (cost : A → nat) :
  (∀ x, Decision (good x)) →
  logs_as body good cost →
  logs_as (λ l, Py.for_ l body) (Forall good) (λ l, sum_list (cost <$> l)).
Proof.
  intros Hdec Hbody l. induction l as [|x l IH]; intros lg.
  { simpl. split; [done|]. split; [intros _; split; [done|lia]|].
    intros H. destruct H. constructor. }
  cbn [Py.for_]. unfold Py.bind.
  destruct (Hbody x lg) as (Hpre & Hgood & Hbad).
  destruct (decide (good x)) as [Hx|Hx].
  - destruct (Hgood Hx) as [Hok Hlen].
    destruct (body x lg) as [res lg1]. simpl in *. subst res.
    destruct (IH lg1) as (Hpre' & Hgood' & Hbad').
    split; [by etrans|]. split.
    + intros Hall. apply Forall_cons in Hall as [_ Hall].
      destruct (Hgood' Hall) as [-> ->]. split; [done|].
      csimpl. change (list_fmap A nat cost l) with (cost <$> l). lia.
    + intros Hnall. apply Hbad'. intros Hall. apply Hnall. by constructor.
  - specialize (Hbad Hx).
    destruct (body x lg) as [res lg1]. simpl in *. subst res.
    split; [done|]. split; [|done].
    intros Hall. apply Forall_cons in Hall as [? _]. done.
Qed.

Lemma log_record_logs msg : logs_as (λ _ : unit, log_record msg) (λ _, True) (λ _, 1).
Proof.
  intros [] lg. simpl. split; [by apply prefix_app_r|].
  split; [|tauto]. intros _. split; [done|]. rewrite length_app. simpl. lia.
Qed.

Lemma display_match_logs root :
  logs_as (display_match root) (λ im, below root (filename im.2)) (λ _, 1).
Proof.
  intros [i m] lg. unfold display_match, relative_to_or_raise, Py.bind, below. simpl.
  destruct (PurePath.relative_to (filename m) root) as [rel|]; simpl.
  - split; [by apply prefix_app_r|]. split.
    + intros _. split; [done|]. rewrite length_app. simpl. lia.
    + intros H. destruct H. eauto.
  - split; [done|]. split; [|done]. by intros [? ?].
Qed.

Lemma enumerate_snd (matches : list MarkdownDocument) :
  (imap (λ i m, (S i, m)) matches).*2 = matches.
Proof.
  assert (∀ (f : nat → nat), (imap (λ i m, (f i, m)) matches).*2 = matches) as H.
  { induction matches as [|m l IH]; intros f; [done|].
    simpl. f_equal. apply (IH (f ∘ S)). }
  apply (H S).
Qed.

Lemma sum_ones {A} (l : list A) : sum_list ((λ _, 1) <$> l) = length l.
Proof. induction l as [|x l IH]; [done|]. csimpl. by f_equal. Qed.

Lemma display_problem_logs root md_relative :
  logs_as (display_problem root md_relative)
          (λ entry, Forall (λ m, below root (filename m)) entry.2)
          records_of_entry.
Proof.
  intros [[line url] matches] lg. unfold display_problem, Py.bind, log_record, Py.modify.
  simpl.
  pose proof (for_logs_as _ _ _ _ (display_match_logs root)
                (imap (λ i m, (S i, m)) matches)
                ((lg ++ ["File: " +:+ PurePath.str md_relative])
                   ++ ["Line: " +:+ pretty line +:+ " -> `" +:+ url_full url +:+ "`"]))
    as (Hpre & Hgood & Hbad).
  assert (Forall (λ im : nat * MarkdownDocument, below root (filename im.2))
                 (imap (λ i m, (S i, m)) matches)
          ↔ Forall (λ m, below root (filename m)) matches) as Hiff.
  { rewrite <- (enumerate_snd matches) at 2. by rewrite Forall_fmap. }
  split.
  { etrans; [|exact Hpre]. rewrite <- app_assoc. by apply prefix_app_r. }
  split.
  - intros Hall. apply Hiff in Hall. destruct (Hgood Hall) as [-> ->].
    split; [done|]. unfold records_of_entry. simpl.
    rewrite sum_ones, length_imap, !length_app. simpl. lia.
  - intros Hnall. apply Hbad. by rewrite Hiff.
Qed.

Lemma display_item_logs root :
  logs_as (display_item root) (displayable root) records_of_item.
Proof.
  intros [md problems] lg.
  unfold display_item, relative_to_or_raise, Py.bind, displayable, below. simpl.
  destruct (PurePath.relative_to (filename md) root) as [rel|] eqn:E; simpl.
  2:{ split; [done|]. split; [|done]. by intros [[? ?] _]. }
  pose proof (for_logs_as _ _ _ _ (display_problem_logs root rel) problems lg)
    as (Hpre & Hgood & Hbad).
  destruct (decide (Forall (λ entry : Classified,
                      Forall (λ m, below root (filename m)) entry.2) problems))
    as [Hall|Hnall].
  - destruct (Hgood Hall) as [Hok Hlen].
    destruct (Py.for_ problems (display_problem root rel) lg) as [res lg1].
    simpl in *. subst res. simpl.
    split; [etrans; [exact Hpre|by apply prefix_app_r]|].
    split; [|by intros H; destruct H].
    intros _. split; [done|]. unfold records_of_item. simpl.
    rewrite length_app, Hlen. simpl. lia.
  - specialize (Hbad Hnall).
    destruct (Py.for_ problems (display_problem root rel) lg) as [res lg1].
    simpl in *. subst res. split; [done|]. split; [|done].
    by intros [_ ?].
Qed.

End DisplayFacts.

(** X18. [display_classified_url] returns exactly when every document it is
    given, also one without entries, and every candidate of every entry
    lies below [root]; it has then logged two records and one per candidate
    for every entry, and one more per document. Otherwise it raises
    ValueError. In both cases the records logged before stay. *)
Theorem display_classified_url_outcome
    (results : list (MarkdownDocument * list Classified)) (root : Path)
    (lg : list string) :
  let out := display_classified_url results root lg in
  lg `prefix_of` out.2
  ∧ (Forall (displayable root) results →
       out.1 = Ok tt ∧ length out.2 = length lg + records_of results)
  ∧ (¬ Forall (displayable root) results → out.1 = Raise ValueError).
Proof.
  intros out. subst out. unfold display_classified_url.
  exact (DisplayFacts.for_logs_as _ _ _ _ (DisplayFacts.display_item_logs root)
           results lg).
Qed.

(** ** links *)

Lemma collect_fold lookup fs b md_files (acc : Report) :
  report_of b (fold_left (collect_step lookup fs) md_files acc)
  = report_of b acc ++ omap (item_of lookup fs b) md_files.
Proof.
  revert acc. induction md_files as [|md l IH]; intros acc; simpl.
  - by rewrite app_nil_r.
  - rewrite IH. unfold item_of at 2.
    assert (report_of b (collect_step lookup fs acc md)
            = append_if_any md
                (bucket b (classify_broken_urls lookup (find_broken_urls md fs)))
                (report_of b acc)) as -> by (by destruct b).
    destruct (bucket b _) as [|e es]; simpl; [done|].
    by rewrite <- app_assoc.
Qed.

(** X19. What the first loop of [links] gathers for a class: the documents
    that have at least one entry of the class, in the order of the corpus,
    each with exactly the entries [classify_broken_urls] files in that class
    for the broken links of the document. No document is listed with an
    empty list of entries. *)
Theorem collect_gathers
    (lookup : gmap string (list MarkdownDocument)) (md_files : list MarkdownDocument)
    (fs : FileSystem) (b : Bucket) :
  (report_of b (collect lookup md_files fs)).*1 `sublist_of` md_files
  ∧ ∀ md entries,
      (md, entries) ∈ report_of b (collect lookup md_files fs)
      ↔ md ∈ md_files
        ∧ entries = bucket b (classify_broken_urls lookup (find_broken_urls md fs))
        ∧ entries ≠ [].
Proof.
  unfold collect. rewrite collect_fold.
  assert (report_of b (MkReport [] [] [] []) = []) as -> by (by destruct b).
  rewrite app_nil_l. split.
  - induction md_files as [|md l IH]; [done|]. simpl. unfold item_of at 1.
    destruct (bucket b _); simpl; by constructor.
  - intros md entries. rewrite list_elem_of_omap. unfold item_of. split.
    + intros (md' & Hin & H).
      destruct (bucket b (classify_broken_urls lookup (find_broken_urls md' fs)))
        as [|e es] eqn:E; [done|]. by simplify_eq.
    + intros (Hin & -> & Hne). exists md. split; [done|].
      by destruct (bucket b _).
Qed.

(** X20. Every entry that the first loop gathers for the repair is sound:
    it is one of the relative links of its document, the target of that
    link does not exist, and it carries exactly one candidate, the one
    document the index has under the base name of the target. *)
Theorem collected_repairs_are_sound
    (lookup : gmap string (list MarkdownDocument)) (md_files : list MarkdownDocument)
    (fs : FileSystem) (md : MarkdownDocument) (entries : list Classified)
    (entry : Classified) :
  (md, entries) ∈ all_exact_match (collect lookup md_files fs) →
  entry ∈ entries →
  entry.1 ∈ relative_links md
  ∧ ¬ target_exists md fs entry.1
  ∧ ∃ m, entry.2 = [m] ∧ lookup !! key_of entry.1 = Some [m].
Proof.
  change (all_exact_match ?r) with (report_of ExactOne r).
  unfold collect. rewrite collect_fold, app_nil_l, list_elem_of_omap.
  intros (md' & _ & Hitem) Hin. unfold item_of in Hitem.
  destruct (bucket ExactOne (classify_broken_urls lookup (find_broken_urls md' fs)))
    as [|e es] eqn:E; [done|]. simplify_eq. rewrite <- E in Hin. clear E.
  rewrite classify_bucket in Hin. destruct entry as [problem c].
  apply elem_of_filed in Hin as [Hp Hv]. simpl.
  unfold find_broken_urls in Hp. rewrite find_broken_urls_fold in Hp.
  apply list_elem_of_filter in Hp as [Hmissing Hlink].
  split; [done|]. split; [done|].
  unfold verdict in Hv. destruct (lookup !! key_of problem) as [docs|]; [|].
  - destruct (decide (length docs = 1)); simplify_eq.
    destruct c as [|m [|??]]; simplify_eq/=. by exists m.
  - by destruct (suggested_keys lookup problem).
Qed.

Lemma show_section_logs (results : Report) (root : Path) :
  logs_as (show_section results root)
          (λ b, Forall (displayable root) (report_of b results))
          (records_of_section results).
Proof.
  intros b lg. unfold show_section, records_of_section.
  destruct (report_of b results) as [|item items] eqn:E.
  { simpl. split; [done|]. split; [intros _; split; [done|lia]|].
    intros H. destruct H. constructor. }
  unfold Py.bind.
  assert (∀ msgs lg0, Py.for_ msgs log_record lg0 = (Ok tt, lg0 ++ msgs)) as Hmsgs.
  { induction msgs as [|m ms IH]; intros lg0; simpl.
    - by rewrite app_nil_r.
    - unfold Py.bind. simpl. rewrite IH. by rewrite <- app_assoc. }
  simpl. rewrite Hmsgs. simpl.
  set (lg1 := ((lg ++ ["------"]) ++ messages b) ++ [""]).
  pose proof (DisplayFacts.for_logs_as _ _ _ _ (DisplayFacts.display_item_logs root)
                (item :: items) lg1) as (Hpre & Hgood & Hbad).
  fold (display_classified_url (item :: items) root lg1) in Hpre, Hgood, Hbad.
  assert (lg `prefix_of` lg1) as Hlg.
  { unfold lg1. rewrite <- !app_assoc. by apply prefix_app_r. }
  split; [by etrans|]. split.
  - intros Hall. destruct (Hgood Hall) as [-> ->]. split; [done|].
    unfold lg1, records_of. rewrite !length_app. simpl. lia.
  - intros Hnall. by apply Hbad.
Qed.

(** X21. [links] never repairs anything. Whatever the corpus, the index and
    the flag, it ends with an exception and the file system is the one it
    started on: with ValueError out of the report when a reported document
    or candidate does not lie below [root], and otherwise with NameError
    at [key = k], after the report and before the loop that would call
    [write_corrected_url]. The records logged before it stay. *)
Theorem links_never_repairs
    (lookup : gmap string (list MarkdownDocument)) (md_files : list MarkdownDocument)
    (root : Path) (dry_run : bool) (fs : FileSystem) (lg : list string) :
  let out := links lookup md_files root dry_run fs lg in
  let results := collect lookup md_files fs in
  out.1.2 = fs
  ∧ lg `prefix_of` out.2
  ∧ (Forall (λ b, Forall (displayable root) (report_of b results)) reported →
       out.1.1 = NameError "k"
       ∧ length out.2
         = length lg + 2 + sum_list (records_of_section results <$> reported))
  ∧ (¬ Forall (λ b, Forall (displayable root) (report_of b results)) reported →
       out.1.1 = Propagated ValueError).
Proof.
  intros out results. subst out.
  set (lg2 := (lg ++ ["Processing Markdown File Links..."]) ++ [""]).
  pose proof (DisplayFacts.for_logs_as _ _ _ _ (show_section_logs results root)
                reported lg2) as (Hpre & Hgood & Hbad).
  assert (links lookup md_files root dry_run fs lg
          = match Py.for_ reported (show_section results root) lg2 with
            | (Ok _, lg') => (NameError "k", fs, lg')
            | (Raise e, lg') => (Propagated e, fs, lg')
            end) as ->.
  { unfold links, links_report, Py.bind. unfold log_record at 1 2.
    unfold Py.modify, Py.ret. fold results. fold lg2.
    by destruct (Py.for_ reported (show_section results root) lg2) as [[[]|e] lg']. }
  assert (lg `prefix_of` lg2) as Hlg.
  { unfold lg2. rewrite <- app_assoc. by apply prefix_app_r. }
  assert (length lg2 = length lg + 2) as Hl2.
  { unfold lg2. rewrite !length_app. simpl. lia. }
  destruct (decide (Forall (λ b, Forall (displayable root) (report_of b results))
                           reported)) as [Hall|Hnall].
  - destruct (Hgood Hall) as [Hok Hlen].
    destruct (Py.for_ reported (show_section results root) lg2) as [res lg1].
    cbn [fst snd] in Hok, Hlen, Hpre. subst res. cbn [fst snd].
    split; [done|]. split; [by etrans|]. split; [|done].
    intros _. split; [done|]. rewrite Hlen, Hl2. lia.
  - specialize (Hbad Hnall).
    destruct (Py.for_ reported (show_section results root) lg2) as [res lg1].
    cbn [fst snd] in Hbad, Hpre. subst res. cbn [fst snd].
    split; [done|]. split; [by etrans|]. split; [done|]. done.
Qed.

(** ** The matcher behind get_close_matches *)

(** Writes the two positions of a goal about [a !! _] and [b !! _] as [x]
    and [y], which they are equal to by arithmetic. *)
Ltac at_positions x y :=
  match goal with
  | |- is_Some (_ !! ?X) ∧ _ !! ?X = _ !! ?Y =>
      replace X with x by lia; replace Y with y by lia
  end.

Section matcher_blocks.
Context (a b : list ascii) (b2j : gmap ascii (list nat)).
Hypothesis Hb2j : b2j_sound b b2j.

Lemma scan_j_valid alo blo bhi i j2len row j :
  alo ≤ i →
  is_Some (a !! i) → a !! i = b !! j →
  row_ok a b alo blo bhi i j2len →
  block_in alo (S i) blo bhi row.1 → matches_at a b row.1 →
  row_ok a b alo blo bhi (S i) row.2 →
  let row' := Difflib.scan_j blo bhi i j2len row j in
  block_in alo (S i) blo bhi row'.1 ∧ matches_at a b row'.1
  ∧ row_ok a b alo blo bhi (S i) row'.2.
Proof.
  intros Hi Hai Hij Hprev Hbest Hmatch Hrow. destruct row as [best newj2len].
  unfold Difflib.scan_j. simpl in *.
  destruct (decide (j < blo)); [done|]. destruct (decide (bhi ≤ j)); [done|].
  set (k := _ + 1).
  assert (1 ≤ k ∧ k ≤ S i - alo ∧ k ≤ j + 1 - blo
          ∧ matches_at a b (S i - k, j + 1 - k, k)) as (Hk1 & Hk2 & Hk3 & Hk4).
  { unfold k. destruct j as [|j'].
    { split; [lia|split; [lia|split; [lia|]]]. intros t Ht. simpl in Ht |- *.
      at_positions i 0. done. }
    destruct (j2len !! j') as [k'|] eqn:E.
    - destruct (Hprev _ _ E) as (H1 & H2 & H3 & H4 & H5).
      split; [simpl; lia|split; [simpl; lia|split; [simpl; lia|]]].
      intros t Ht. simpl in Ht |- *.
      destruct (decide (t < k')) as [Hlt|Hge].
      + specialize (H5 t Hlt). simpl in H5.
        match type of H5 with
        | is_Some (a !! ?X) ∧ _ = b !! ?Y => at_positions X Y
        end. done.
      + at_positions i (S j'). done.
    - split; [simpl; lia|split; [simpl; lia|split; [simpl; lia|]]].
      intros t Ht. simpl in Ht |- *. at_positions i (S j'). done. }
  assert (row_ok a b alo blo bhi (S i) (<[j:=k]> newj2len)) as Hrow'.
  { intros j0 k0. rewrite lookup_insert. case_decide; [|by apply Hrow].
    intros [= <-]. subst j0. split; [done|split; [done|split; [done|split; [lia|done]]]]. }
  destruct (decide (best.2 < k)); simpl; [|done].
  split; [|split; [|done]].
  - unfold block_in. simpl. lia.
  - replace (i + 1 - k) with (S i - k) by lia. done.
Qed.

Lemma scan_i_valid alo blo bhi i st :
  alo ≤ i →
  block_in alo i blo bhi st.1 → matches_at a b st.1 →
  row_ok a b alo blo bhi i st.2 →
  let st' := Difflib.scan_i a b2j blo bhi st i in
  block_in alo (S i) blo bhi st'.1 ∧ matches_at a b st'.1
  ∧ row_ok a b alo blo bhi (S i) st'.2.
Proof.
  intros Hi Hbest Hmatch Hrow. destruct st as [best j2len]. unfold Difflib.scan_i.
  simpl in *.
  assert (∀ j, j ∈ match a !! i with
                   | Some c => default [] (b2j !! c)
                   | None => []
                   end → is_Some (a !! i) ∧ a !! i = b !! j) as Hjs.
  { intros j. destruct (a !! i) as [c|]; [|by intros ?%elem_of_nil].
    destruct (b2j !! c) as [js|] eqn:E; simpl; [|by intros ?%elem_of_nil].
    intros Hj. split; [eauto|]. symmetry. by eapply Hb2j. }
  revert Hjs. generalize (match a !! i with
                          | Some c => default [] (b2j !! c)
                          | None => []
                          end). intros js Hjs.
  assert (block_in alo (S i) blo bhi (best, (∅ : gmap nat nat)).1
          ∧ matches_at a b (best, (∅ : gmap nat nat)).1
          ∧ row_ok a b alo blo bhi (S i) (best, (∅ : gmap nat nat)).2) as Hinit.
  { split; [|split; [done|]].
    - unfold block_in in *. simpl. lia.
    - intros j k. simpl. by rewrite lookup_empty. }
  revert Hinit. generalize (best, (∅ : gmap nat nat)).
  induction js as [|j js IH]; intros row (H1 & H2 & H3); [done|].
  simpl. apply IH.
  - intros j' Hj'. apply Hjs. by right.
  - destruct (Hjs j) as [Hs He]; [by left|]. by apply scan_j_valid.
Qed.

Lemma scan_rows_valid alo blo bhi n i st :
  alo ≤ i →
  block_in alo i blo bhi st.1 → matches_at a b st.1 →
  row_ok a b alo blo bhi i st.2 →
  let st' := fold_left (Difflib.scan_i a b2j blo bhi) (seq i n) st in
  block_in alo (i + n) blo bhi st'.1 ∧ matches_at a b st'.1.
Proof.
  revert i st. induction n as [|n IH]; intros i st Hi Hbest Hmatch Hrow; simpl.
  - by rewrite Nat.add_0_r.
  - replace (i + S n) with (S i + n) by lia.
    destruct (scan_i_valid alo blo bhi i st Hi Hbest Hmatch Hrow) as (H1 & H2 & H3).
    apply IH; [lia|done..].
Qed.

Lemma extend_left_valid alo ahi blo bhi room m :
  room ≤ m.1.1 - alo →
  block_in alo ahi blo bhi m → matches_at a b m →
  block_in alo ahi blo bhi (Difflib.extend_left a b room blo m)
  ∧ matches_at a b (Difflib.extend_left a b room blo m).
Proof.
  revert m. induction room as [|room IH];
    intros [[besti bestj] bestsize] Hroom Hin Hm; simpl in *; [done|].
  destruct (decide _) as [(Hj & Hs & He)|]; [|done].
  unfold block_in in Hin. simpl in Hin.
  apply IH; simpl; [lia|unfold block_in; simpl; lia|].
  intros t Ht. simpl in Ht |- *. destruct t as [|t].
  - at_positions (besti - 1) (bestj - 1). done.
  - at_positions (besti + t) (bestj + t). apply (Hm t). simpl. lia.
Qed.

Lemma extend_right_valid alo ahi blo bhi room m :
  room + (m.1.1 + m.2) ≤ ahi →
  block_in alo ahi blo bhi m → matches_at a b m →
  block_in alo ahi blo bhi (Difflib.extend_right a b room bhi m)
  ∧ matches_at a b (Difflib.extend_right a b room bhi m).
Proof.
  revert m. induction room as [|room IH];
    intros [[besti bestj] bestsize] Hroom Hin Hm; simpl in *; [done|].
  destruct (decide _) as [(Hj & Hs & He)|]; [|done].
  unfold block_in in Hin. simpl in Hin.
  apply IH; simpl; [lia|unfold block_in; simpl; lia|].
  intros t Ht. simpl in Ht |- *. destruct (decide (t < bestsize)) as [Hlt|Hge].
  - by apply (Hm t).
  - at_positions (besti + bestsize) (bestj + bestsize). done.
Qed.

(** The block [find_longest_match] returns lies in both ranges and pairs
    equal characters. *)
Lemma find_longest_match_valid alo ahi blo bhi :
  alo ≤ ahi → blo ≤ bhi →
  block_in alo ahi blo bhi (Difflib.find_longest_match a b b2j alo ahi blo bhi)
  ∧ matches_at a b (Difflib.find_longest_match a b b2j alo ahi blo bhi).
Proof.
  intros Ha Hb. unfold Difflib.find_longest_match.
  pose proof (scan_rows_valid alo blo bhi (ahi - alo) alo ((alo, blo, 0), ∅)) as Hscan.
  destruct (fold_left _ _ _) as [best j2len]. simpl in Hscan.
  destruct Hscan as [H1 H2].
  { done. } { unfold block_in. simpl. lia. } { intros t Ht. simpl in Ht. lia. }
  { intros j k. by rewrite lookup_empty. }
  replace (alo + (ahi - alo)) with ahi in H1 by lia.
  destruct (extend_left_valid alo ahi blo bhi (best.1.1 - alo) best) as [H3 H4];
    [done..|].
  apply extend_right_valid; [|done..].
  destruct H3 as (_ & H3 & _). lia.
Qed.

End matcher_blocks.

(** *** What the blocks add up to *)

Module MatcherFacts.
Import gmultiset.

Lemma slice_split {A} (l : list A) (lo mid hi : nat) :
  lo ≤ mid → mid ≤ hi → slice l lo hi = slice l lo mid ++ slice l mid hi.
Proof.
  intros H1 H2. unfold slice.
  replace (drop mid l) with (drop (mid - lo) (drop lo l))
    by (rewrite drop_drop; f_equal; lia).
  rewrite take_take_drop. f_equal. lia.
Qed.

Lemma slice_all {A} (l : list A) : slice l 0 (length l) = l.
Proof. unfold slice. rewrite Nat.sub_0_r. simpl. by apply take_ge. Qed.

(** A block of equal characters is the same slice of both strings. *)
Lemma slice_block (a b : list ascii) (i j k : nat) :
  matches_at a b (i, j, k) →
  slice a i (i + k) = slice b j (j + k) ∧ length (slice a i (i + k)) = k.
Proof.
  intros Hm. unfold slice.
  replace (i + k - i) with k by lia. replace (j + k - j) with k by lia.
  split.
  - apply list_eq. intros t. destruct (decide (t < k)) as [Ht|Ht].
    + rewrite !lookup_take_lt, !lookup_drop by done. by destruct (Hm t Ht).
    + by rewrite !lookup_take_ge by lia.
  - rewrite length_take, length_drop. destruct k as [|k]; [done|].
    destruct (Hm k) as [Hs _]; [simpl; lia|]. simpl in Hs.
    apply lookup_lt_is_Some in Hs. lia.
Qed.

Lemma size_list_to_set_disj (l : list ascii) :
  size (list_to_set_disj l : gmultiset ascii) = length l.
Proof.
  induction l as [|x l IH]; [done|].
  rewrite list_to_set_disj_cons, gmultiset_size_disj_union, gmultiset_size_singleton, IH.
  done.
Qed.

(** A block that both strings hold counts in full, beside what the parts
    before it share and what the parts after it share. *)
Lemma shared_app_block (u1 u2 v1 v2 w : list ascii) :
  shared u1 v1 + length w + shared u2 v2 ≤ shared (u1 ++ w ++ u2) (v1 ++ w ++ v2).
Proof.
  unfold shared. rewrite !list_to_set_disj_app.
  rewrite <- (size_list_to_set_disj w), <- !gmultiset_size_disj_union.
  apply gmultiset_subseteq_size. multiset_solver.
Qed.

Lemma shared_le_length (u v : list ascii) :
  shared u v ≤ length u `min` length v.
Proof.
  unfold shared. rewrite <- (size_list_to_set_disj u), <- (size_list_to_set_disj v).
  apply Nat.min_glb; apply gmultiset_subseteq_size; multiset_solver.
Qed.

End MatcherFacts.

Section matcher_total.
Context (a b : list ascii) (b2j : gmap ascii (list nat)).
Hypothesis Hb2j : b2j_sound b b2j.

(** The blocks found in two ranges are disjoint blocks of equal characters,
    so together they are no more than the characters the ranges share. *)
Lemma matching_size_shared fuel alo ahi blo bhi :
  alo ≤ ahi → blo ≤ bhi →
  Difflib.matching_size a b b2j fuel alo ahi blo bhi
  ≤ shared (slice a alo ahi) (slice b blo bhi).
Proof.
  revert alo ahi blo bhi.
  induction fuel as [|fuel IH]; intros alo ahi blo bhi Ha Hb; simpl; [lia|].
  destruct (find_longest_match_valid a b b2j Hb2j alo ahi blo bhi Ha Hb) as [Hin Hm].
  destruct (Difflib.find_longest_match a b b2j alo ahi blo bhi) as [[i j] k].
  destruct (MatcherFacts.slice_block a b i j k Hm) as [Heq Hlen].
  destruct Hin as (H1 & H2 & H3 & H4). simpl in H1, H2, H3, H4.
  destruct (decide (k = 0)); [lia|].
  rewrite (MatcherFacts.slice_split a alo i ahi),
    (MatcherFacts.slice_split a i (i + k) ahi),
    (MatcherFacts.slice_split b blo j bhi),
    (MatcherFacts.slice_split b j (j + k) bhi) by lia.
  rewrite <- Heq.
  etrans; [|apply MatcherFacts.shared_app_block]. rewrite Hlen.
  assert ((if decide (alo < i ∧ blo < j)
           then Difflib.matching_size a b b2j fuel alo i blo j else 0)
          ≤ shared (slice a alo i) (slice b blo j)) as Hleft.
  { destruct (decide (alo < i ∧ blo < j)); [apply IH; lia|lia]. }
  assert ((if decide (i + k < ahi ∧ j + k < bhi)
           then Difflib.matching_size a b b2j fuel (i + k) ahi (j + k) bhi else 0)
          ≤ shared (slice a (i + k) ahi) (slice b (j + k) bhi)) as Hright.
  { destruct (decide (i + k < ahi ∧ j + k < bhi)); [apply IH; lia|lia]. }
  lia.
Qed.

End matcher_total.

(** The index [chain_b] builds lists, for a character, positions of [b]
    that hold it. *)
Lemma chain_b_sound (b : list ascii) : b2j_sound b (Difflib.chain_b b).
Proof.
  assert (b2j_sound b (Difflib.index_b b)) as Hindex.
  { unfold Difflib.index_b.
    assert (∀ p, p ∈ imap (λ i elt, (i, elt)) b → b !! p.1 = Some p.2) as Hl.
    { intros [i elt] Hp. apply list_elem_of_lookup in Hp as [n Hn].
      rewrite list_lookup_imap in Hn.
      destruct (b !! n) as [y|] eqn:E; simplify_eq/=. done. }
    assert (b2j_sound b ∅) as Hinit.
    { intros c js j. by rewrite lookup_empty. }
    revert Hl Hinit. generalize (∅ : gmap ascii (list nat)).
    generalize (imap (λ i elt, (i, elt)) b).
    induction l as [|[i elt] l IH]; intros m Hl Hm; [done|].
    simpl. apply IH.
    - intros p Hp. apply Hl. by right.
    - intros c js j. rewrite lookup_insert. case_decide as Hc; [|by apply Hm].
      intros [= <-] Hj. subst c. apply elem_of_app in Hj as [Hj|Hj].
      + destruct (m !! elt) as [js|] eqn:E; simpl in Hj; [|by apply elem_of_nil in Hj].
        by eapply Hm.
      + apply list_elem_of_singleton in Hj as ->. apply (Hl (i, elt)). by left. }
  unfold Difflib.chain_b. case_decide; [|done].
  intros c js j Hc. apply map_lookup_filter_Some in Hc as [Hc _].
  by eapply Hindex.
Qed.

(** *** quick_ratio *)

Module QuickRatioFacts.
Import gmultiset.

(** [fullbcount] counts the characters of [b]. *)
Lemma fullbcount_multiplicity (b : list ascii) (c : ascii) :
  default 0%Z (Difflib.fullbcount b !! c)
  = Z.of_nat (multiplicity c (list_to_set_disj b : gmultiset ascii)).
Proof.
  unfold Difflib.fullbcount.
  assert (∀ m : gmap ascii Z,
            default 0%Z (fold_left (λ (m : gmap ascii Z) elt,
                                      <[elt := (default 0 (m !! elt) + 1)%Z]> m) b m !! c)
            = (default 0 (m !! c)
               + Z.of_nat (multiplicity c (list_to_set_disj b : gmultiset ascii)))%Z) as H.
  { induction b as [|x b IH]; intros m; simpl.
    - rewrite multiplicity_empty. lia.
    - rewrite IH, lookup_insert, multiplicity_disj_union, multiplicity_singleton.
      destruct (decide (x = c)) as [->|Hx].
      + rewrite decide_True by done. simpl. lia.
      + rewrite decide_False by done. lia. }
  rewrite H, lookup_empty. simpl. lia.
Qed.

(** One more character of [a] is one more match when [b] still has one to
    spare. *)
Lemma shared_step (P B : gmultiset ascii) (x : ascii) :
  size ((P ⊎ {[+ x +]}) ∩ B)
  = if decide (multiplicity x P < multiplicity x B) then size (P ∩ B) + 1 else size (P ∩ B).
Proof.
  case_decide as Hx.
  - rewrite <- (gmultiset_size_singleton x), <- gmultiset_size_disj_union. f_equal.
    apply gmultiset_eq. intros c.
    rewrite multiplicity_intersection, !multiplicity_disj_union,
      multiplicity_intersection, multiplicity_singleton.
    case_decide; subst; lia.
  - f_equal. apply gmultiset_eq. intros c.
    rewrite !multiplicity_intersection, multiplicity_disj_union, multiplicity_singleton.
    case_decide; subst; lia.
Qed.

(** [quick_ratio] counts the characters the two strings share. *)
Lemma quick_matches_shared (a b : list ascii) : Difflib.quick_matches a b = shared a b.
Proof.
  unfold Difflib.quick_matches, shared.
  set (B := list_to_set_disj b : gmultiset ascii).
  set (step := λ '(avail, matches) elt, _).
  assert (∀ (P : gmultiset ascii) (avail : gmap ascii Z) (matches : nat),
            (∀ c, match avail !! c with
                  | Some n => n
                  | None => default 0%Z (Difflib.fullbcount b !! c)
                  end = (Z.of_nat (multiplicity c B) - Z.of_nat (multiplicity c P))%Z) →
            matches = size (P ∩ B) →
            (fold_left step a (avail, matches)).2
            = size ((P ⊎ list_to_set_disj a) ∩ B)) as H.
  { induction a as [|x a IH]; intros P avail matches Havail Hmatches.
    - simpl. rewrite Hmatches. f_equal. multiset_solver.
    - cbn [fold_left]. rewrite list_to_set_disj_cons.
      replace (P ⊎ ({[+ x +]} ⊎ list_to_set_disj a))
        with ((P ⊎ {[+ x +]}) ⊎ list_to_set_disj a) by multiset_solver.
      unfold step at 2. pose proof (Havail x) as Hx.
      set (numb := match avail !! x with
                   | Some n => n
                   | None => default 0%Z (Difflib.fullbcount b !! x)
                   end) in *.
      apply IH.
      + intros c. rewrite lookup_insert, multiplicity_disj_union, multiplicity_singleton.
        destruct (decide (x = c)) as [->|Hc].
        * rewrite decide_True by done. lia.
        * rewrite decide_False by done. rewrite Havail. lia.
      + rewrite shared_step, Hmatches.
        destruct (decide (0 < numb)%Z); [rewrite decide_True by lia|rewrite decide_False by lia];
          done. }
  rewrite (H ∅ ∅ 0).
  - f_equal. multiset_solver.
  - intros c. rewrite lookup_empty, multiplicity_empty, fullbcount_multiplicity. fold B. lia.
  - symmetry. apply gmultiset_size_empty_iff. multiset_solver.
Qed.

End QuickRatioFacts.

(** *** The three scores *)

Lemma calculate_ratio_mono (m1 m2 n : nat) :
  m1 ≤ m2 → (Difflib.calculate_ratio m1 n ≤ Difflib.calculate_ratio m2 n)%Qc.
Proof.
  intros H. unfold Difflib.calculate_ratio. destruct n as [|n]; [apply Qcle_refl|].
  unfold Qcle, Q2Qc. cbn [this]. rewrite !Qred_correct.
  unfold Qle. cbn [Qnum Qden]. apply Z.mul_le_mono_nonneg_r; lia.
Qed.

Lemma calculate_ratio_range (m n : nat) :
  2 * m ≤ n →
  (Q2Qc 0 ≤ Difflib.calculate_ratio m n)%Qc ∧ (Difflib.calculate_ratio m n ≤ Q2Qc 1)%Qc.
Proof.
  intros H. unfold Difflib.calculate_ratio. destruct n as [|n]; [done|].
  unfold Qcle, Q2Qc. cbn [this]. rewrite !Qred_correct.
  unfold Qle. cbn [Qnum Qden].
  rewrite <- Pos.of_nat_succ, Zpos_P_of_succ_nat. lia.
Qed.

(** The numbers of matches behind the three scores. *)
Lemma matches_ordered (x word : string) :
  let a := Difflib.chars x in
  let b := Difflib.chars word in
  Difflib.matching_size a b (Difflib.chain_b b) (S (length a)) 0 (length a) 0 (length b)
  ≤ Difflib.quick_matches a b
  ∧ Difflib.quick_matches a b ≤ length a `min` length b.
Proof.
  intros a b.
  pose proof (matching_size_shared a b (Difflib.chain_b b) (chain_b_sound b)
                (S (length a)) 0 (length a) 0 (length b)) as Hm.
  rewrite !MatcherFacts.slice_all in Hm.
  rewrite QuickRatioFacts.quick_matches_shared.
  split; [apply Hm; lia|apply MatcherFacts.shared_le_length].
Qed.

(** The cascade of tests in [get_close_matches] filters as the last test
    alone would. *)
Lemma close_enough_ratio (word : string) (c : Qc) (x : string) :
  Difflib.close_enough word c x ↔ (c ≤ Difflib.ratio x word)%Qc.
Proof.
  unfold Difflib.close_enough. split; [by intros (_ & _ & ?)|]. intros Hc.
  destruct (matches_ordered x word) as [H1 H2].
  assert (c ≤ Difflib.quick_ratio x word)%Qc as Hq.
  { eapply Qcle_trans; [exact Hc|]. by apply calculate_ratio_mono. }
  split; [|done].
  eapply Qcle_trans; [exact Hq|]. by apply calculate_ratio_mono.
Qed.

(** X22. The three scores [get_close_matches] computes for a possibility are
    upper bounds of one another, as the cascade of its tests takes for
    granted: [ratio() <= quick_ratio() <= real_quick_ratio()], and all lie
    between 0 and 1. *)
Theorem ratio_upper_bounds (x word : string) :
  (Q2Qc 0 ≤ Difflib.ratio x word)%Qc
  ∧ (Difflib.ratio x word ≤ Difflib.quick_ratio x word)%Qc
  ∧ (Difflib.quick_ratio x word ≤ Difflib.real_quick_ratio x word)%Qc
  ∧ (Difflib.real_quick_ratio x word ≤ Q2Qc 1)%Qc.
Proof.
  destruct (matches_ordered x word) as [H1 H2].
  unfold Difflib.ratio, Difflib.quick_ratio, Difflib.real_quick_ratio. cbv zeta.
  split; [|split; [|split]].
  - apply calculate_ratio_range. cbv zeta in H1, H2. lia.
  - by apply calculate_ratio_mono.
  - by apply calculate_ratio_mono.
  - apply calculate_ratio_range. lia.
Qed.

(** X23. Where a broken link with an unknown base name goes is decided by
    the similarity alone: it is filed in [no_matches] exactly when every key
    of the index scores below 0.8 against its base name, and in
    [suggestions] exactly when some key scores 0.8 or more, with the
    documents of the keys proposed. *)
Theorem unknown_name_filed_by_ratio
    (lookup : gmap string (list MarkdownDocument)) (broken_urls : list Problem)
    (problem : Problem) (c : list MarkdownDocument) :
  let r := classify_broken_urls lookup broken_urls in
  let key := key_of problem in
  ((problem, c) ∈ no_matches r ↔
     problem ∈ broken_urls ∧ c = [] ∧ lookup !! key = None
     ∧ ∀ k, is_Some (lookup !! k) → (Difflib.ratio k key < cutoff)%Qc)
  ∧ ((problem, c) ∈ suggestions r ↔
       problem ∈ broken_urls ∧ lookup !! key = None
       ∧ (∃ k, is_Some (lookup !! k) ∧ (cutoff ≤ Difflib.ratio k key)%Qc)
       ∧ c = pk ← suggested_keys lookup problem; default [] (lookup !! pk)).
Proof.
  intros r key. subst r key.
  change (no_matches ?r) with (bucket NoMatch r).
  change (suggestions ?r) with (bucket Suggested r).
  rewrite !classify_bucket, !elem_of_filed.
  assert (suggested_keys lookup problem = []
          ↔ ∀ k, is_Some (lookup !! k) → (Difflib.ratio k (key_of problem) < cutoff)%Qc) as Hnil.
  { unfold suggested_keys. rewrite DifflibFacts.get_close_matches_nil by (unfold n_default; lia).
    split; intros H k Hk.
    - apply Qcnot_le_lt. intros Hc%close_enough_ratio. revert Hc. apply H.
      by apply elem_of_keys.
    - intros Hc%close_enough_ratio. revert Hc. apply Qclt_not_le. apply H.
      by apply elem_of_keys. }
  assert (suggested_keys lookup problem ≠ []
          ↔ ∃ k, is_Some (lookup !! k) ∧ (cutoff ≤ Difflib.ratio k (key_of problem))%Qc) as Hsome.
  { split.
    - intros Hne. destruct (suggested_keys lookup problem) as [|pk pks] eqn:E; [done|].
      assert (pk ∈ suggested_keys lookup problem) as Hpk by (rewrite E; left).
      apply DifflibFacts.elem_of_get_close_matches in Hpk as [Hin Hc].
      exists pk. split; [by apply elem_of_keys|].
      by apply (proj1 (close_enough_ratio _ _ _)).
    - intros (k & Hk & Hc) Hnone. apply Qcle_not_lt in Hc. apply Hc.
      by apply Hnil. }
  unfold verdict.
  destruct (lookup !! key_of problem) as [docs|] eqn:E.
  - split; split.
    + intros [_ Hv]. case_decide; simplify_eq.
    + by intros (_ & _ & ? & _).
    + intros [_ Hv]. case_decide; simplify_eq.
    + by intros (_ & ? & _).
  - destruct (suggested_keys lookup problem) as [|pk pks] eqn:Es.
    + split; split.
      * intros [Hin Hv]. simplify_eq. split; [done|]. split; [done|]. split; [done|].
        by apply Hnil.
      * intros (Hin & -> & _ & _). done.
      * intros [_ Hv]. simplify_eq.
      * intros (_ & _ & Hex & _). by apply Hsome in Hex.
    + split; split.
      * intros [_ Hv]. simplify_eq.
      * intros (_ & _ & _ & Hall). apply Hnil in Hall. done.
      * intros [Hin Hv]. simplify_eq. split; [done|]. split; [done|]. split; [|done].
        by apply Hsome.
      * intros (Hin & _ & _ & ->). done.
Qed.

Lemma get_close_matches_NoDup (word : string) (c : Qc) (possibilities : list string)
    (n : nat) :
  NoDup possibilities → NoDup (Difflib.get_close_matches word possibilities n c).
Proof.
  intros Hnd. rewrite DifflibFacts.get_close_matches_eq. unfold Difflib.nlargest.
  rewrite fmap_take. eapply sublist_NoDup; [|apply sublist_take].
  rewrite merge_sort_Permutation, <- list_fmap_compose.
  assert (∀ l : list string, snd ∘ scored word <$> l = l) as ->.
  { induction l as [|x l IH]; [done|]. csimpl. by rewrite IH. }
  by apply NoDup_filter.
Qed.

(** X24. The keys proposed for a broken link with an unknown base name are
    distinct keys of the index, and they are the best: a key that scores
    0.8 or more and is not proposed scores no more than any proposed key,
    and then three keys are proposed. So when fewer than three keys are
    proposed, they are exactly the keys that score 0.8 or more. *)
Theorem proposed_keys_are_the_best
    (lookup : gmap string (list MarkdownDocument)) (problem : Problem) :
  let key := key_of problem in
  let pks := suggested_keys lookup problem in
  NoDup pks
  ∧ (∀ pk y, pk ∈ pks → is_Some (lookup !! y) →
       (cutoff ≤ Difflib.ratio y key)%Qc → y ∉ pks →
       (Difflib.ratio y key ≤ Difflib.ratio pk key)%Qc ∧ length pks = n_default)
  ∧ (length pks < n_default →
       ∀ y, y ∈ pks ↔ is_Some (lookup !! y) ∧ (cutoff ≤ Difflib.ratio y key)%Qc).
Proof.
  intros key pks. subst key pks.
  assert (∀ pk y, pk ∈ suggested_keys lookup problem → is_Some (lookup !! y) →
            (cutoff ≤ Difflib.ratio y (key_of problem))%Qc →
            y ∉ suggested_keys lookup problem →
            (Difflib.ratio y (key_of problem) ≤ Difflib.ratio pk (key_of problem))%Qc
            ∧ length (suggested_keys lookup problem) = n_default) as Hbest.
  { intros pk y Hpk Hy Hc Hny.
    apply (DifflibFacts.get_close_matches_best (key_of problem) cutoff
             (keys lookup) n_default pk y); [apply NoDup_keys|done| |  |done].
    - by apply elem_of_keys.
    - by apply (proj2 (close_enough_ratio _ _ _)). }
  split; [apply get_close_matches_NoDup, NoDup_keys|]. split; [done|].
  intros Hlen y. split.
  - intros Hy. apply DifflibFacts.elem_of_get_close_matches in Hy as [Hin Hc].
    split; [by apply elem_of_keys|by apply (proj1 (close_enough_ratio _ _ _))].
  - intros [Hy Hc].
    destruct (decide (y ∈ suggested_keys lookup problem)) as [|Hny]; [done|].
    destruct (suggested_keys lookup problem) as [|pk pks] eqn:E.
    + assert (0 < n_default) as Hn by (unfold n_default; lia).
      pose proof (proj1 (DifflibFacts.get_close_matches_nil (key_of problem) cutoff
                           (keys lookup) n_default Hn) E y) as Hnone.
      destruct Hnone; [by apply elem_of_keys|by apply (proj2 (close_enough_ratio _ _ _))].
    + destruct (Hbest pk y) as [_ Hl]; [by left|done..|]. lia.
Qed.

(** * The further properties on the small corpus *)

(** X2, on the corpus: two links to [report.md] through different
    directories are filed alike. *)
Lemma same_base_name_same_class_witness :
  ((5, MoreCorpus.to_report_too), [Corpus.report])
    ∈ bucket ExactOne
        (classify_broken_urls Corpus.index
           [(4, Corpus.to_report); (5, MoreCorpus.to_report_too)]).
Proof.
  apply (same_base_name_same_class Corpus.index
           [(4, Corpus.to_report); (5, MoreCorpus.to_report_too)]
           (4, Corpus.to_report) (5, MoreCorpus.to_report_too)
           ExactOne [Corpus.report]).
  - vm_compute. reflexivity.
  - apply (bool_decide_unpack _). vm_compute. reflexivity.
  - apply (bool_decide_unpack _). vm_compute. reflexivity.
Defined.

(** X5, on the corpus: the keys of the index taken backwards. *)
Lemma suggestions_independent_of_key_order_witness :
  Difflib.get_close_matches "reprat.md" (reverse (keys Corpus.index)) n_default cutoff
  = Difflib.get_close_matches "reprat.md" (keys Corpus.index) n_default cutoff.
Proof.
  apply (suggestions_independent_of_key_order Corpus.index
           (reverse (keys Corpus.index)) "reprat.md" n_default cutoff).
  apply reverse_Permutation.
Defined.

(** X6, on the corpus: once [/docs/b/report.md] is back, the links of [z]
    that are broken are among those that were. *)
Lemma find_broken_urls_shrinks_witness :
  find_broken_urls Corpus.z MoreCorpus.restored_file_system
    `sublist_of` find_broken_urls Corpus.z Corpus.file_system.
Proof.
  apply (find_broken_urls_shrinks Corpus.z Corpus.file_system
           MoreCorpus.restored_file_system).
  - apply insert_subseteq. vm_compute. reflexivity.
  - reflexivity.
  - reflexivity.
Defined.

(** X9, on the corpus: after the entry of [x], one for a line that [x]
    does not have. *)
Lemma write_corrected_url_stops_at_bad_entry_witness :
  let out := write_corrected_url relative_path_model Corpus.x
               ([Corpus.fix_report] ++ MoreCorpus.beyond_x :: [Corpus.fix_report])
               Corpus.root_dir false Corpus.file_system [] in
  out.1 = Raise (refusal Corpus.x MoreCorpus.beyond_x)
  ∧ disk out.2 = Corpus.file_system
  ∧ contents (doc out.2)
    = rewritten relative_path_model Corpus.x Corpus.root_dir [Corpus.fix_report]
        (contents Corpus.x).
Proof.
  apply (write_corrected_url_stops_at_bad_entry relative_path_model Corpus.x
           [Corpus.fix_report] [Corpus.fix_report] MoreCorpus.beyond_x
           Corpus.root_dir false Corpus.file_system []).
  - apply (bool_decide_unpack _). vm_compute. reflexivity.
  - apply (bool_decide_unpack _). vm_compute. reflexivity.
Defined.

(** X10, on the corpus: the dry run on [x] logs three records. *)
Lemma write_corrected_url_report_witness :
  let w := (write_corrected_url relative_path_model Corpus.x [Corpus.fix_report]
              Corpus.root_dir true Corpus.file_system []).2 in
  log w = [] ++ ([Corpus.fix_report]
                   ≫= announcement relative_path_model Corpus.x Corpus.root_dir)
             ++ ["------DRY-RUN------"]
  ∧ length (log w) = length (@nil string) + 2 * length [Corpus.fix_report] + 1.
Proof.
  apply (write_corrected_url_report relative_path_model Corpus.x [Corpus.fix_report]
           Corpus.root_dir true Corpus.file_system []).
  - apply (bool_decide_unpack _). vm_compute. reflexivity.
  - left. reflexivity.
Defined.

(** X11, on the corpus: an entry for the heading of [x], which holds no
    link. *)
Lemma write_corrected_url_absent_target_witness :
  contents (doc (write_corrected_url relative_path_model Corpus.x
                   [((0, Corpus.to_report), [Corpus.report])]
                   Corpus.root_dir false Corpus.file_system []).2)
  = contents Corpus.x.
Proof.
  apply (write_corrected_url_absent_target relative_path_model Corpus.x
           0 Corpus.to_report [Corpus.report] Corpus.root_dir false
           Corpus.file_system [] ("# X" +:+ Corpus.nl)).
  - reflexivity.
  - vm_compute. discriminate.
  - apply absentb_sound. vm_compute. reflexivity.
Defined.

(** X14, on the corpus: the link written into [x] names [report.md]. *)
Lemma new_link_keeps_base_name_witness :
  key_of (1, MoreCorpus.to_report_corrected) = PurePath.name (filename Corpus.report).
Proof.
  apply (new_link_keeps_base_name relative_path_model Corpus.x Corpus.report
           (1, MoreCorpus.to_report_corrected)).
  - apply (bool_decide_unpack _). vm_compute. reflexivity.
  - vm_compute. discriminate.
  - apply (bool_decide_unpack _). vm_compute. reflexivity.
  - vm_compute. reflexivity.
Defined.

(** X15, on the corpus: the link written into [x] leads to
    [/docs/c/report.md], which exists. *)
Lemma new_link_resolves_to_candidate_witness :
  FS.resolve Corpus.file_system
    (PurePath.joinpath (PurePath.parent (filename Corpus.x))
       (url_md MoreCorpus.to_report_corrected))
  = filename Corpus.report
  ∧ (FS.exists_ Corpus.file_system (filename Corpus.report) = true →
     target_exists Corpus.x Corpus.file_system (1, MoreCorpus.to_report_corrected)).
Proof.
  apply (new_link_resolves_to_candidate relative_path_model Corpus.x Corpus.report
           Corpus.file_system (1, MoreCorpus.to_report_corrected)).
  - vm_compute. discriminate.
  - apply (bool_decide_unpack _). vm_compute. reflexivity.
  - vm_compute. discriminate.
  - vm_compute. discriminate.
  - apply (bool_decide_unpack _). vm_compute. reflexivity.
  - vm_compute. reflexivity.
  - vm_compute. reflexivity.
  - vm_compute. reflexivity.
Defined.

(** X17, on the corpus: a relative path with a [".."]. *)
Lemma resolve_idempotent_witness :
  root (FS.resolve Corpus.file_system (PurePath.parse "docs/a/../c/report.md")) = "/"
  ∧ Forall (λ c, c ≠ "..")
      (tail (FS.resolve Corpus.file_system (PurePath.parse "docs/a/../c/report.md")))
  ∧ FS.resolve Corpus.file_system
      (FS.resolve Corpus.file_system (PurePath.parse "docs/a/../c/report.md"))
    = FS.resolve Corpus.file_system (PurePath.parse "docs/a/../c/report.md").
Proof.
  apply (resolve_idempotent Corpus.file_system (PurePath.parse "docs/a/../c/report.md")).
  reflexivity.
Defined.

(** X20, on the corpus: the one repair gathered for [z]. *)
Lemma collected_repairs_are_sound_witness :
  (4, Corpus.to_report) ∈ relative_links Corpus.z
  ∧ ¬ target_exists Corpus.z Corpus.file_system (4, Corpus.to_report)
  ∧ ∃ m, [Corpus.report] = [m]
         ∧ Corpus.index !! key_of (4, Corpus.to_report) = Some [m].
Proof.
  apply (collected_repairs_are_sound Corpus.index [Corpus.x; Corpus.z]
           Corpus.file_system Corpus.z [((4, Corpus.to_report), [Corpus.report])]
           ((4, Corpus.to_report), [Corpus.report])).
  - apply (bool_decide_unpack _). vm_compute. reflexivity.
  - apply (bool_decide_unpack _). vm_compute. reflexivity.
Defined.
